(** * Whack-a-mole kiosk: the game loop of the [Game] component

    A shallow embedding of the round logic of [components/Game.tsx]
    (constants, [getDifficulty], [spawnEntity], [handleWhack], the
    animation-frame [loop], the pause effect), of [components/Hole.tsx], of
    the part of [App.tsx] around the game ([startGame], [handleGameOver],
    [toggleMute], the kiosk idle reset) and of [utils/sound.ts].

    The component is embedded twice.

    - The first embedding is an idealised round.  Numbers obtained by
      division ([timeLeft], difficulty, durations, random draws) are exact
      rationals ([Q]), so rounding of IEEE doubles is not modelled; sound
      calls always return; every event is handled by the handlers of the
      latest render; and [Game] leaves the page at the moment the status
      stops being [PLAYING] (in the program the exit animation keeps it on
      the page a little longer).  The invariants of a round (score, lives,
      reports, remaining time, the concurrency cap, pausing) are proved on
      this embedding, along event traces from the mount.
    - [Module Double] embeds the same functions as the program computes
      them: numbers are binary64 floats, [handleWhack] makes its sound call
      and may be cut short by it, and a handler is a function of the render
      that created it, applied to whatever state is current.  The
      statements that depend on rounding, on the sound call or on the
      render a handler belongs to are made on this embedding.

    Common conventions.
    - Times read from [Date.now()], scores and lives are integers ([Z]).
    - A handler of the component reads the values of the render it was
      created in (its closure) and enqueues state updates; React applies
      the queued updaters in order afterwards.  Handlers are therefore
      functions from the rendered state to a list of [Update]s, and
      [flushUpdates] plays the part of the re-render.
    - [Math.random()] and [Date.now()] are inputs of the handlers. *)

From Stdlib Require Import ZArith QArith Qround Qminmax Lia Lqa Sorted.
From Stdlib Require Floats.
From stdpp Require Import base list strings.

Local Open Scope Z_scope.

(** ** JavaScript primitives used by the component *)

Module Js.

(** [a > b] on numbers. *)
Definition gt (a b : Q) : bool := negb (Qle_bool a b).

(** [a <= b] on numbers. *)
Definition le (a b : Q) : bool := Qle_bool a b.

(** [arr[i]] for an integer [i]: [undefined] ([None]) outside the array. *)
Definition array_get {A : Type} (arr : list A) (i : Z) : option A :=
  if i <? 0 then None else arr !! Z.to_nat i.

(** [arr[i] = v] on an array of nullable elements.  Inside the array the
    element is replaced; past its end the array is extended, the skipped
    positions being holes (read back as absent values); a negative [i]
    only sets a property and changes no element. *)
Definition array_set {A : Type} (arr : list (option A)) (i : Z) (v : option A)
  : list (option A) :=
  if i <? 0 then arr
  else if (Z.to_nat i <? length arr)%nat then <[Z.to_nat i := v]> arr
  else arr ++ replicate (Z.to_nat i - length arr)%nat None ++ [v].

(** How a call completes: it returns a value, or it throws. *)
Inductive Completion (A : Type) : Type :=
| Normal (a : A)
| Throw (msg : string).
Arguments Normal {A} a.
Arguments Throw {A} msg.

End Js.

Import Js.

(** ** types.ts *)

Inductive EntityType : Set := mole | golden | bomb.

Record GameEntity : Set := mkEntity {
  id : string;
  type : EntityType;
  spawnTime : Z;
  duration : Q;
  isHit : bool
}.

Abbreviation GridState := (list (option GameEntity)).

Inductive GameStatus : Set := IDLE | PLAYING | GAME_OVER.

(** Of [ScoreConfig] only the points; the label and colour are display. *)
Record ScoreConfig : Set := { points : Z }.

Definition ENTITY_CONFIG (t : EntityType) : ScoreConfig :=
  match t with
  | mole => {| points := 1 |}
  | golden => {| points := 3 |}
  | bomb => {| points := 0 |}
  end.

(** ** Game.tsx: constants *)

Definition GRID_SIZE : nat := 12.
Definition GAME_DURATION : Q := 30.
Definition SPAWN_INTERVAL_START : Q := 800.
Definition SPAWN_INTERVAL_END : Q := 400.
Definition MOLE_DURATION_START : Q := 1500.
Definition MOLE_DURATION_END : Q := 700.

(** ** Game.tsx: component state

    The five [useState] cells and the three [useRef] cells the logic reads
    ([animationFrameId] only serves to cancel the pending frame). *)

Record GameState : Type := mkGame {
  grid : GridState;
  score : Z;
  timeLeft : Q;
  lives : Z;
  isPaused : bool
}.

Record GameRefs : Set := mkRefs {
  lastSpawnTime : Z;
  startTime : Z;
  pausedTime : Z
}.

(** Calls that leave the component. *)
Inductive Cue : Set := cueWhack | cueGolden | cueBomb | cueGameOver.

Inductive HostCall : Set :=
| playSound (c : Cue)
| setTimeout_onGameOver (finalScore : Z) (ms : Z)
| onGameOver (finalScore : Z)
| requestAnimationFrame.

(** What a handler enqueues, in program order: state setters (with their
    updater function, or the new value for [setTimeLeft]) and host calls.
    The updater given to [setLives] schedules a timeout, so it yields host
    calls next to the new value. *)
Inductive Update : Type :=
| setGrid (f : GridState -> GridState)
| setScore (f : Z -> Z)
| setTimeLeft (v : Q)
| setLives (f : Z -> Z * list HostCall)
| host (c : HostCall).

Definition applyUpdate (u : Update) (s : GameState) : GameState * list HostCall :=
  match u with
  | setGrid f => (mkGame (f (grid s)) (score s) (timeLeft s) (lives s) (isPaused s), [])
  | setScore f => (mkGame (grid s) (f (score s)) (timeLeft s) (lives s) (isPaused s), [])
  | setTimeLeft v => (mkGame (grid s) (score s) v (lives s) (isPaused s), [])
  | setLives f =>
      let '(l, calls) := f (lives s) in
      (mkGame (grid s) (score s) (timeLeft s) l (isPaused s), calls)
  | host c => (s, [c])
  end.

Fixpoint flushUpdates (us : list Update) (s : GameState) : GameState * list HostCall :=
  match us with
  | [] => (s, [])
  | u :: rest =>
      let '(s1, c1) := applyUpdate u s in
      let '(s2, c2) := flushUpdates rest s1 in
      (s2, c1 ++ c2)
  end.

(** ** Game.tsx: [getDifficulty] *)

Definition getDifficulty (timeLeft : Q) : Q :=
  let elapsed := (GAME_DURATION - timeLeft)%Q in
  Qmin (Qmax (elapsed / GAME_DURATION) 0) 1.

(** ** Game.tsx: [spawnEntity] *)

(** The values [spawnEntity] draws: the two [Math.random()] rolls for the
    hole and the type, the random id, and [Date.now()]. *)
Record Draws : Set := mkDraws {
  holeRoll : Q;
  typeRoll : Q;
  idDraw : string;
  spawnNow : Z
}.

Definition unhit (e : option GameEntity) : bool :=
  match e with
  | Some e => negb (isHit e)
  | None => false
  end.

Definition currentCount (g : GridState) : nat := length (List.filter unhit g).

Definition maxConcurrent (difficulty : Q) : Z := 1 + Qfloor (difficulty * 2).

Definition emptyIndices (g : GridState) : list Z :=
  List.filter (fun i => negb (i =? -1))
    (imap (fun i e => match e with None => Z.of_nat i | Some _ => -1 end) g).

Definition rollType (roll : Q) : EntityType :=
  if gt roll 0.85 then bomb
  else if gt roll 0.7 then golden
  else mole.

Definition newEntity (difficulty : Q) (d : Draws) : GameEntity :=
  {| id := idDraw d;
     type := rollType (typeRoll d);
     spawnTime := spawnNow d;
     duration := (MOLE_DURATION_START
                  - difficulty * (MOLE_DURATION_START - MOLE_DURATION_END))%Q;
     isHit := false |}.

Definition spawnEntity (rendered : GameState) (d : Draws) : list Update :=
  let difficulty := getDifficulty (timeLeft rendered) in
  if maxConcurrent difficulty <=? Z.of_nat (currentCount (grid rendered)) then []
  else
    let empty := emptyIndices (grid rendered) in
    if (length empty =? 0)%nat then []
    else
      let k := Qfloor (holeRoll d * inject_Z (Z.of_nat (length empty))) in
      match array_get empty k with
      | Some randomIndex =>
          [setGrid (fun prev => array_set prev randomIndex (Some (newEntity difficulty d)))]
      | None =>
          (* the index is undefined: the copy gets a property, no element *)
          [setGrid (fun prev => prev)]
      end.

(** ** Game.tsx: [handleWhack] *)

Definition markHit (e : GameEntity) : GameEntity :=
  {| id := id e; type := type e; spawnTime := spawnTime e;
     duration := duration e; isHit := true |}.

Definition markHitAt (index : Z) (prev : GridState) : GridState :=
  match array_get prev index with
  | Some (Some e) => array_set prev index (Some (markHit e))
  | _ => prev
  end.

Definition loseLife (renderedScore : Z) (prev : Z) : Z * list HostCall :=
  let newLives := prev - 1 in
  (newLives,
   if newLives <=? 0 then [setTimeout_onGameOver renderedScore 500] else []).

Definition handleWhack (rendered : GameState) (index : Z) : Completion (list Update) :=
  match array_get (grid rendered) index with
  | Some (Some entity) =>
      if isHit entity then Normal []
      else
        Normal
          (setGrid (markHitAt index)
           :: match type entity with
              | bomb =>
                  [host (playSound cueBomb); setLives (loseLife (score rendered))]
              | golden =>
                  [host (playSound cueGolden); setScore (fun s => s + 3)]
              | mole =>
                  [host (playSound cueWhack); setScore (fun s => s + 1)]
              end)
  | _ => Normal []
  end.

(** ** Game.tsx: the animation-frame [loop] *)

(** [newTimeLeft] as the loop computes it from [Date.now()] and [startTime]. *)
Definition remaining (start now : Z) : Q :=
  let elapsed := (inject_Z (now - start) / 1000)%Q in
  Qmax (GAME_DURATION - elapsed) 0.

(** The callback of [prev.map(...)] that despawns expired entities. *)
Definition despawn (now : Z) (slot : option GameEntity) : option GameEntity :=
  match slot with
  | None => None
  | Some entity =>
      if isHit entity && gt (inject_Z (now - spawnTime entity)) (duration entity + 500)
      then None
      else if negb (isHit entity) && gt (inject_Z (now - spawnTime entity)) (duration entity)
      then None
      else Some entity
  end.

Definition currentSpawnInterval (newTimeLeft : Q) : Q :=
  let difficulty := ((GAME_DURATION - newTimeLeft) / GAME_DURATION)%Q in
  (SPAWN_INTERVAL_START - difficulty * (SPAWN_INTERVAL_START - SPAWN_INTERVAL_END))%Q.

Definition setLastSpawnTime (r : GameRefs) (t : Z) : GameRefs :=
  mkRefs t (startTime r) (pausedTime r).

Definition loop (rendered : GameState) (refs : GameRefs) (now : Z) (d : Draws)
  : GameRefs * list Update :=
  if isPaused rendered then (refs, [host requestAnimationFrame])
  else
    let newTimeLeft := remaining (startTime refs) now in
    if le newTimeLeft 0
    then (refs, [setTimeLeft newTimeLeft; host (onGameOver (score rendered))])
    else
      let sweep := setGrid (fmap (despawn now)) in
      if gt (inject_Z (now - lastSpawnTime refs)) (currentSpawnInterval newTimeLeft)
      then (setLastSpawnTime refs now,
            [setTimeLeft newTimeLeft; sweep] ++ spawnEntity rendered d
              ++ [host requestAnimationFrame])
      else (refs, [setTimeLeft newTimeLeft; sweep; host requestAnimationFrame]).

(** ** Game.tsx: the pause effect (runs when [isPaused] changes) *)

Definition pauseEffect (paused : bool) (refs : GameRefs) (now : Z) : GameRefs :=
  if negb paused && (0 <? pausedTime refs) then
    let pauseDuration := now - pausedTime refs in
    mkRefs (lastSpawnTime refs) (startTime refs + pauseDuration) 0
  else if paused then mkRefs (lastSpawnTime refs) (startTime refs) now
  else refs.

(** ** App.tsx: the screens around the game *)

Record AppState : Set := mkApp {
  status : GameStatus;
  lastScore : Z;
  highScore : Z
}.

Definition startGame (a : AppState) : AppState :=
  mkApp PLAYING (lastScore a) (highScore a).

(** [handleGameOver] also plays the game-over sound, which changes no state. *)
Definition handleGameOver (a : AppState) (finalScore : Z) : AppState :=
  mkApp GAME_OVER finalScore
        (if highScore a <? finalScore then finalScore else highScore a).

(** ** One round in its host

    The page around one mounted [Game]: the [App] state, the component's
    state and refs, the timeouts that were set and are still pending (due
    time and the score their callback carries, oldest first), and the
    scores [onGameOver] was called with so far (oldest first).  [clock] is
    the last value [Date.now()] returned. *)

Record World : Type := mkWorld {
  appState : AppState;
  game : GameState;
  refs : GameRefs;
  timers : list (Z * Z);
  reports : list Z;
  clock : Z
}.

(** Mounting [Game] at time [t0], after [startGame]. *)
Definition mount (t0 : Z) : World :=
  {| appState := mkApp PLAYING 0 0;
     game := mkGame (replicate GRID_SIZE None) 0 GAME_DURATION 3 false;
     refs := mkRefs 0 t0 0;
     timers := [];
     reports := [];
     clock := t0 |}.

Definition perform (now : Z) (w : World) (c : HostCall) : World :=
  match c with
  | playSound _ => w
  | requestAnimationFrame => w
  | setTimeout_onGameOver s ms =>
      mkWorld (appState w) (game w) (refs w) (timers w ++ [(now + ms, s)]) (reports w) (clock w)
  | onGameOver s =>
      mkWorld (handleGameOver (appState w) s) (game w) (refs w) (timers w)
              (reports w ++ [s]) (clock w)
  end.

(** A handler ran at [now] and left [updates] (and new refs): React
    re-renders, then the host calls take effect. *)
Definition commit (now : Z) (w : World) (r : GameRefs) (updates : list Update) : World :=
  let '(g, calls) := flushUpdates updates (game w) in
  foldl (perform now) (mkWorld (appState w) g r (timers w) (reports w) now) calls.

(** Nothing happens but the passing of time. *)
Definition idleUntil (now : Z) (w : World) : World :=
  mkWorld (appState w) (game w) (refs w) (timers w) (reports w) now.

Inductive Event : Set :=
| Frame (now : Z) (d : Draws)        (* the requested animation frame runs [loop] *)
| Click (now : Z) (index : Z)        (* a hole calls [onWhack(index)] *)
| TimerFire (now : Z)                (* the oldest pending timeout is due and runs *)
| SetPaused (now : Z) (paused : bool).  (* [setIsPaused(paused)], then the pause effect *)

Definition eventTime (e : Event) : Z :=
  match e with
  | Frame now _ | Click now _ | TimerFire now | SetPaused now _ => now
  end.

Definition mounted (w : World) : bool :=
  match status (appState w) with PLAYING => true | _ => false end.

(** [Game] is rendered only while the status is [PLAYING].  Here it leaves
    the page as soon as the status changes: its frame is cancelled and its
    holes are gone, but timeouts that were set stay pending.  (In the
    program the exit animation keeps the component on the page for a
    moment after the status changed; frames and hits of that moment are
    not events of this model.)  The component keeps [isPaused] and its
    setter but renders no control that calls the setter; [SetPaused] stands
    for a host that does, and runs the pause effect when the flag changes. *)
Definition step (w : World) (e : Event) : World :=
  match e with
  | Frame now d =>
      if mounted w then
        let '(r, updates) := loop (game w) (refs w) now d in
        commit now w r updates
      else idleUntil now w
  | Click now index =>
      if mounted w then
        match handleWhack (game w) index with
        | Normal updates => commit now w (refs w) updates
        | Throw _ => idleUntil now w
        end
      else idleUntil now w
  | TimerFire now =>
      match timers w with
      | (due, s) :: rest =>
          if due <=? now
          then perform now (mkWorld (appState w) (game w) (refs w) rest (reports w) now)
                       (onGameOver s)
          else idleUntil now w
      | [] => idleUntil now w
      end
  | SetPaused now paused =>
      if mounted w && negb (Bool.eqb paused (isPaused (game w))) then
        mkWorld (appState w)
                (mkGame (grid (game w)) (score (game w)) (timeLeft (game w))
                        (lives (game w)) paused)
                (pauseEffect paused (refs w) now)
                (timers w) (reports w) now
      else idleUntil now w
  end.

Definition run (w : World) (es : list Event) : World := foldl step w es.

(** A world is reachable when it comes from a mount by events whose times
    never go backwards. *)
Inductive reachable : World -> Prop :=
| reach_mount (t0 : Z) : 0 < t0 -> reachable (mount t0)
| reach_step (w : World) (e : Event) :
    reachable w -> clock w <= eventTime e -> reachable (step w e).

(** ** Vocabulary of the statements *)

(** The guard of [handleWhack]: the slot is empty, outside the grid, or its
    entity is already hit. *)
Definition blocked (g : GridState) (index : Z) : bool :=
  match array_get g index with
  | Some (Some entity) => isHit entity
  | _ => true
  end.

Definition lifeCost (t : EntityType) : Z :=
  match t with bomb => 1 | _ => 0 end.

(** The grid a running frame leaves: the swept grid, with the new entity in
    a hole that was empty in the rendered grid when a spawn succeeded. *)
Definition frameGrid (s : GameState) (now : Z) (d : Draws) (G : GridState) : Prop :=
  G = despawn now <$> grid s
  \/ exists n : nat,
       grid s !! n = Some None
       /\ Z.of_nat (currentCount (grid s)) < maxConcurrent (getDifficulty (timeLeft s))
       /\ G = <[n := Some (newEntity (getDifficulty (timeLeft s)) d)]>
                (despawn now <$> grid s).

Inductive frameOutcome (w : World) (now : Z) (d : Draws) : World -> Prop :=
| frame_idle w' :
    mounted w = false \/ isPaused (game w) = true ->
    game w' = game w -> refs w' = refs w ->
    frameOutcome w now d w'
| frame_final w' :
    mounted w = true -> isPaused (game w) = false ->
    (remaining (startTime (refs w)) now <= 0)%Q ->
    game w' = mkGame (grid (game w)) (score (game w))
                     (remaining (startTime (refs w)) now) (lives (game w)) false ->
    refs w' = refs w ->
    frameOutcome w now d w'
| frame_running w' G :
    mounted w = true -> isPaused (game w) = false ->
    (0 < remaining (startTime (refs w)) now)%Q ->
    frameGrid (game w) now d G ->
    game w' = mkGame G (score (game w))
                     (remaining (startTime (refs w)) now) (lives (game w)) false ->
    startTime (refs w') = startTime (refs w) ->
    pausedTime (refs w') = pausedTime (refs w) ->
    frameOutcome w now d w'.

(** The remaining time on display is never behind the clock: while
    playing it is at least what [loop] would compute now, while paused at
    least what it would have computed when the pause began. *)
Definition timeInv (w : World) : Prop :=
  0 < clock w
  /\ if isPaused (game w)
     then 0 < pausedTime (refs w) <= clock w
          /\ (remaining (startTime (refs w)) (pausedTime (refs w)) <= timeLeft (game w))%Q
     else pausedTime (refs w) = 0
          /\ (remaining (startTime (refs w)) (clock w) <= timeLeft (game w))%Q.

(** The unhit entities on the grid never outnumber the cap that the
    remaining time on display allows. *)
Definition capInv (w : World) : Prop :=
  Z.of_nat (currentCount (grid (game w)))
  <= maxConcurrent (getDifficulty (timeLeft (game w))).

(** Frames given by their time and draws. *)
Definition frames (fs : list (Z * Draws)) : list Event :=
  (fun f => Frame f.1 f.2) <$> fs.

(** The events of a list happen in order of time, none before [t]. *)
Fixpoint inOrder (t : Z) (es : list Event) : bool :=
  match es with
  | [] => true
  | e :: rest => (t <=? eventTime e) && inOrder (eventTime e) rest
  end.

(** ** A round with four bombs *)

Definition bombDraws (hole : Q) (name : string) (t : Z) : Draws :=
  mkDraws hole 0.9 name t.

Definition fourBombs : list Event :=
  [ Frame 1016 (bombDraws 0 "a" 1016);
    Click 1100 0;
    Frame 16000 (bombDraws 0 "b" 16000);
    Click 16100 1;
    Frame 17000 (bombDraws 0 "c" 17000);
    Frame 17700 (bombDraws 0 "d" 17700);
    Click 17750 0;
    Click 17800 2;
    TimerFire 18250;
    TimerFire 18300 ].

(** The first frame comes 14.4 s after the mount and spawns into hole 0;
    the entity is hit at 15500, so the grid has no unhit entity and a spawn
    would succeed.  At 16000 half of the round is over and the spawn
    interval is exactly 600 ms. *)
Definition afterFirstHit : World :=
  run (mount 1000) [Frame 15400 (bombDraws 0 "a" 15400); Click 15500 0].

(** What holds of the score, the lives and the reports throughout a round. *)
Definition roundInv (w : World) : Prop :=
  0 <= score (game w)
  /\ lives (game w) <= 3
  /\ (mounted w = true -> reports w = [])
  /\ (timers w <> [] -> lives (game w) <= 0)
  /\ (reports w <> [] -> lives (game w) <= 0 \/ (timeLeft (game w) <= 0)%Q)
  /\ Forall (fun r => 0 <= r <= score (game w)) (reports w)
  /\ Forall (fun t => t.1 <= clock w + 500 /\ 0 <= t.2 <= score (game w)) (timers w).

(** ** App.tsx: the game-over screen *)

(** The condition under which the screen shows "New High Score!". *)
Definition showsNewHighScore (a : AppState) : bool :=
  (highScore a <=? lastScore a) && (0 <? lastScore a).

(** [handleGameOver] as the render [rendered] created it, run when the
    state is [prev]: it compares with the high score it closed over and
    sets the states outright. *)
Definition handleGameOverOf (rendered prev : AppState) (finalScore : Z) : AppState :=
  mkApp GAME_OVER finalScore
        (if highScore rendered <? finalScore then finalScore else highScore prev).

(** ** App.tsx: the kiosk idle reset

    The page with the timeout that [idleTimeoutRef] holds, if one is
    pending (its due time). *)
Record Kiosk : Set := mkKiosk {
  page : AppState;
  idleTimeout : option Z
}.

Definition IDLE_RESET_MS : Z := 10000.

(** The listener of [touchstart] and [click] on the window. *)
Definition resetIdleTimer (k : Kiosk) (now : Z) : Kiosk :=
  match status (page k) with
  | GAME_OVER => mkKiosk (page k) (Some (now + IDLE_RESET_MS))
  | _ => mkKiosk (page k) None
  end.

Definition GameStatus_eqb (a b : GameStatus) : bool :=
  match a, b with
  | IDLE, IDLE | PLAYING, PLAYING | GAME_OVER, GAME_OVER => true
  | _, _ => false
  end.

(** A new page state is rendered; when the status changed, the cleanup of
    the idle effect clears the pending timeout. *)
Definition renderPage (k : Kiosk) (a : AppState) : Kiosk :=
  if GameStatus_eqb (status a) (status (page k))
  then mkKiosk a (idleTimeout k)
  else mkKiosk a None.

(** The callback of the idle timeout: [setStatus(IDLE)]. *)
Definition idleTimeoutFires (k : Kiosk) : Kiosk :=
  renderPage (mkKiosk (page k) None) (mkApp IDLE (lastScore (page k)) (highScore (page k))).

Inductive KioskEvent : Set :=
| Tap (now : Z)                 (* a touch or click anywhere on the page *)
| PressStart (now : Z)          (* a click on "Tap to Start" or "Play Again" *)
| RoundOver (finalScore : Z)    (* [Game] calls [onGameOver] *)
| Wait (now : Z).               (* time passes until [now] *)

(** The start buttons exist on the start and game-over screens only; their
    click also reaches the window listener, which here runs after the
    re-render. *)
Definition kioskStep (k : Kiosk) (e : KioskEvent) : Kiosk :=
  match e with
  | Tap now => resetIdleTimer k now
  | PressStart now =>
      match status (page k) with
      | PLAYING => resetIdleTimer k now
      | _ => resetIdleTimer (renderPage k (startGame (page k))) now
      end
  | RoundOver finalScore => renderPage k (handleGameOver (page k) finalScore)
  | Wait now =>
      match idleTimeout k with
      | Some due => if due <=? now then idleTimeoutFires k else k
      | None => k
      end
  end.

Definition kioskStart : Kiosk := mkKiosk (mkApp IDLE 0 0) None.

(** ** utils/sound.ts *)

Inductive AudioContextState : Set := suspended | running | closed.

(** What the browser offers when a sound is asked for: whether an
    [AudioContext] constructor exists, and the state a context is in. *)
Record AudioEnv : Set := mkAudioEnv {
  available : bool;
  contextState : AudioContextState
}.

(** The engine: whether [ctx] has been created, and [enabled]. *)
Record SoundEngine : Set := mkEngine {
  ctx : bool;
  enabled : bool
}.

Inductive Wave : Set := triangle | sine | sawtooth.
Inductive Ramp : Set := exponentialRamp | linearRamp.

(** One oscillator through one gain node; times in seconds from
    [currentTime]. *)
Record Tone : Set := mkTone {
  wave : Wave;
  freqFrom : Q;
  freqRamp : Ramp;
  freqTo : Q;
  freqRampEnd : Q;
  gainFrom : Q;
  gainRamp : Ramp;
  gainTo : Q;
  gainRampEnd : Q;
  stopAfter : Q
}.

Inductive AudioCall : Set :=
| newAudioContext
| resume
| startTone (t : Tone).

Definition soundEngine : SoundEngine := mkEngine false true.

Definition init (env : AudioEnv) (s : SoundEngine)
  : Completion (SoundEngine * list AudioCall) :=
  let resumed := match contextState env with suspended => [resume] | _ => [] end in
  if ctx s then Normal (s, resumed)
  else if available env
       then Normal (mkEngine true (enabled s), newAudioContext :: resumed)
       else Throw "undefined is not a constructor".

Definition setMute (mute : bool) (s : SoundEngine) : SoundEngine :=
  mkEngine (ctx s) (negb mute).

(** The common shape of the four [play...] methods. *)
Definition play (t : Tone) (env : AudioEnv) (s : SoundEngine)
  : Completion (SoundEngine * list AudioCall) :=
  if negb (enabled s) then Normal (s, [])
  else
    match init env s with
    | Throw msg => Throw msg
    | Normal (s', calls) =>
        if negb (ctx s') then Normal (s', calls)
        else Normal (s', calls ++ [startTone t])
    end.

Definition whackTone : Tone :=
  mkTone triangle 300 exponentialRamp 50 0.1 1 exponentialRamp 0.01 0.1 0.1.
Definition goldenTone : Tone :=
  mkTone sine 600 linearRamp 1200 0.1 0.5 linearRamp 0 0.3 0.3.
Definition bombTone : Tone :=
  mkTone sawtooth 100 exponentialRamp 10 0.4 1 exponentialRamp 0.01 0.4 0.4.
Definition gameOverTone : Tone :=
  mkTone triangle 300 linearRamp 100 1 0.5 linearRamp 0 1 1.

Definition playWhack := play whackTone.
Definition playGolden := play goldenTone.
Definition playBomb := play bombTone.
Definition playGameOver := play gameOverTone.

Definition toneOf (c : Cue) : Tone :=
  match c with
  | cueWhack => whackTone
  | cueGolden => goldenTone
  | cueBomb => bombTone
  | cueGameOver => gameOverTone
  end.

(** ** App.tsx: sound and mute *)

Record Sound : Set := mkSound {
  isMuted : bool;
  engine : SoundEngine
}.

Definition toggleMute (s : Sound) : Sound :=
  let newState := negb (isMuted s) in
  mkSound newState (setMute newState (engine s)).

(** [startGame] with its sound: [playWhack] runs first, so when it throws
    the status is not set. *)
Definition startGameWithSound (env : AudioEnv) (a : AppState) (s : Sound)
  : Completion (AppState * Sound * list AudioCall) :=
  match playWhack env (engine s) with
  | Throw msg => Throw msg
  | Normal (eng, calls) => Normal (startGame a, mkSound (isMuted s) eng, calls)
  end.

Inductive SoundAction : Set :=
| pressMute
| playCue (c : Cue) (env : AudioEnv).

(** The page's sound state after an action and the audio calls it made; an
    action that throws leaves what its handler had done before. *)
Definition soundStep (s : Sound) (a : SoundAction) : Sound * list AudioCall :=
  match a with
  | pressMute => (toggleMute s, [])
  | playCue c env =>
      match play (toneOf c) env (engine s) with
      | Normal (eng, calls) => (mkSound (isMuted s) eng, calls)
      | Throw _ => (s, [])
      end
  end.

Fixpoint soundRun (s : Sound) (acts : list SoundAction) : Sound * list AudioCall :=
  match acts with
  | [] => (s, [])
  | a :: rest =>
      let '(s1, c1) := soundStep s a in
      let '(s2, c2) := soundRun s1 rest in
      (s2, c1 ++ c2)
  end.

Definition soundStart : Sound := mkSound false soundEngine.

(** The kiosk after a list of events, from the start screen. *)
Definition kioskRun (es : list KioskEvent) : Kiosk := foldl kioskStep kioskStart es.

(** The sound state after a list of actions, from the page load. *)
Definition countNew (calls : list AudioCall) : nat :=
  length (List.filter (fun c => match c with newAudioContext => true | _ => false end) calls).

(** The cue [handleWhack] plays for a hit on an entity of type [t]. *)
Definition cueOfType (t : EntityType) : Cue :=
  match t with
  | bomb => cueBomb
  | golden => cueGolden
  | mole => cueWhack
  end.

(** A browser with an [AudioContext] that runs, and one without
    [AudioContext]. *)
Definition audible : AudioEnv := mkAudioEnv true running.
Definition silent : AudioEnv := mkAudioEnv false suspended.

(** The engine once [startGame] has created the audio context. *)
Definition playingEngine : SoundEngine := mkEngine true true.

(** * Game.tsx in double precision, with its sound calls

    The definitions above compute with exact rationals and let every
    handler read the latest render; the invariants of the round are proved
    on them.  Three things the program does are outside that model, and the
    statements that depend on them are made on the definitions below.
    - JavaScript numbers are IEEE-754 binary64 values: every [+], [-],
      [*] and [/] rounds to the nearest double.  Here numbers are the
      kernel's binary64 floats ([PrimFloat.float]), whose operations round
      in the same way.  Times read from [Date.now()], scores and lives
      stay integers ([Z]): they are integers of magnitude below 2^53, on
      which double arithmetic is exact.
    - [handleWhack] calls the sound engine between [setGrid] and
      [setLives] / [setScore]; when the engine throws, the updates
      enqueued before the call stay enqueued and the later ones are never
      made.
    - A handler reads the state of the render that created it, which need
      not be the latest one: the element of a hit entity stays on screen
      while it animates out and keeps the handler it was rendered with.  A
      handler is therefore a function of its own render [rendered], and
      its updates are applied with [flushUpdates] to whatever state is
      current. *)

Module Double.

Import PrimFloat.
#[local] Set Warnings "-inexact-float".

(** ** Numbers *)

(** The Number that holds the integer [z]. *)
Definition ofZ (z : Z) : float :=
  match z with
  | Z0 => 0%float
  | Zpos _ => of_uint63 (Uint63.of_Z z)
  | Zneg p => (- of_uint63 (Uint63.of_Z (Zpos p)))%float
  end.

(** [a > b] and [a <= b]; both are false when an operand is NaN. *)
Definition gt (a b : float) : bool := (b <? a)%float.
Definition le (a b : float) : bool := (a <=? b)%float.

(** [Math.max] and [Math.min]: NaN when an operand is NaN; of the two
    zeros [+0] is the larger. *)
Definition Math_max (a b : float) : float :=
  if is_nan a || is_nan b then nan
  else if (a <? b)%float then b
  else if (b <? a)%float then a
  else if get_sign a then b else a.

Definition Math_min (a b : float) : float :=
  if is_nan a || is_nan b then nan
  else if (a <? b)%float then a
  else if (b <? a)%float then b
  else if get_sign a then a else b.

(** [Math.floor] as an integer; [None] for NaN and the infinities, which
    [Math.floor] returns as they are. *)
Definition Math_floor (x : float) : option Z :=
  match FloatOps.Prim2SF x with
  | SpecFloat.S754_zero _ => Some 0
  | SpecFloat.S754_finite s m e => Some (Z.shiftl (if s then Zneg m else Zpos m) e)
  | _ => None
  end.

(** The rational number a finite double stands for. *)
Definition toQ (x : float) : option Q :=
  match FloatOps.Prim2SF x with
  | SpecFloat.S754_zero _ => Some 0%Q
  | SpecFloat.S754_finite s m e =>
      let n := if s then Zneg m else Zpos m in
      Some (match e with
            | Zneg k => n # (2 ^ k)
            | _ => inject_Z (n * 2 ^ e)
            end)
  | _ => None
  end.

(** ** types.ts *)

Record GameEntity : Set := mkEntity {
  id : string;
  type : EntityType;
  spawnTime : Z;
  duration : float;
  isHit : bool
}.

Abbreviation GridState := (list (option GameEntity)).

(** ** Game.tsx: constants *)

Definition GRID_SIZE : nat := 12.
Definition GAME_DURATION : float := 30.
Definition SPAWN_INTERVAL_START : float := 800.
Definition SPAWN_INTERVAL_END : float := 400.
Definition MOLE_DURATION_START : float := 1500.
Definition MOLE_DURATION_END : float := 700.

(** ** Game.tsx: component state *)

Record GameState : Type := mkGame {
  grid : GridState;
  score : Z;
  timeLeft : float;
  lives : Z;
  isPaused : bool
}.

(** The state of the first render. *)
Definition initialState : GameState :=
  mkGame (replicate GRID_SIZE None) 0 GAME_DURATION 3 false.

Inductive Update : Type :=
| setGrid (f : GridState -> GridState)
| setScore (f : Z -> Z)
| setTimeLeft (v : float)
| setLives (f : Z -> Z * list HostCall)
| host (c : HostCall).

Definition applyUpdate (u : Update) (s : GameState) : GameState * list HostCall :=
  match u with
  | setGrid f => (mkGame (f (grid s)) (score s) (timeLeft s) (lives s) (isPaused s), [])
  | setScore f => (mkGame (grid s) (f (score s)) (timeLeft s) (lives s) (isPaused s), [])
  | setTimeLeft v => (mkGame (grid s) (score s) v (lives s) (isPaused s), [])
  | setLives f =>
      let '(l, calls) := f (lives s) in
      (mkGame (grid s) (score s) (timeLeft s) l (isPaused s), calls)
  | host c => (s, [c])
  end.

Fixpoint flushUpdates (us : list Update) (s : GameState) : GameState * list HostCall :=
  match us with
  | [] => (s, [])
  | u :: rest =>
      let '(s1, c1) := applyUpdate u s in
      let '(s2, c2) := flushUpdates rest s1 in
      (s2, c1 ++ c2)
  end.

(** ** Game.tsx: [getDifficulty] *)

Definition getDifficulty (timeLeft : float) : float :=
  let elapsed := (GAME_DURATION - timeLeft)%float in
  Math_min (Math_max (elapsed / GAME_DURATION)%float 0) 1.

(** ** Game.tsx: [spawnEntity] *)

Record Draws : Set := mkDraws {
  holeRoll : float;
  typeRoll : float;
  idDraw : string;
  spawnNow : Z
}.

Definition unhit (e : option GameEntity) : bool :=
  match e with
  | Some e => negb (isHit e)
  | None => false
  end.

Definition currentCount (g : GridState) : nat := length (List.filter unhit g).

(** [1 + Math.floor(difficulty * 2)]; [None] when it is NaN. *)
Definition maxConcurrent (difficulty : float) : option Z :=
  match Math_floor (difficulty * 2)%float with
  | Some n => Some (1 + n)
  | None => None
  end.

(** [currentCount >= maxConcurrent]; a comparison with NaN is false. *)
Definition capReached (count : nat) (cap : option Z) : bool :=
  match cap with
  | Some m => m <=? Z.of_nat count
  | None => false
  end.

Definition emptyIndices (g : GridState) : list Z :=
  List.filter (fun i => negb (i =? -1))
    (imap (fun i e => match e with None => Z.of_nat i | Some _ => -1 end) g).

Definition rollType (roll : float) : EntityType :=
  if gt roll 0.85 then bomb
  else if gt roll 0.7 then golden
  else mole.

Definition newEntity (difficulty : float) (d : Draws) : GameEntity :=
  {| id := idDraw d;
     type := rollType (typeRoll d);
     spawnTime := spawnNow d;
     duration := (MOLE_DURATION_START
                  - difficulty * (MOLE_DURATION_START - MOLE_DURATION_END))%float;
     isHit := false |}.

(** [emptyIndices[Math.floor(Math.random() * emptyIndices.length)]]. *)
Definition pickHole (empty : list Z) (roll : float) : option Z :=
  match Math_floor (roll * ofZ (Z.of_nat (length empty)))%float with
  | Some k => array_get empty k
  | None => None
  end.

Definition spawnEntity (rendered : GameState) (d : Draws) : list Update :=
  let difficulty := getDifficulty (timeLeft rendered) in
  if capReached (currentCount (grid rendered)) (maxConcurrent difficulty) then []
  else
    let empty := emptyIndices (grid rendered) in
    if (length empty =? 0)%nat then []
    else
      match pickHole empty (holeRoll d) with
      | Some randomIndex =>
          [setGrid (fun prev => array_set prev randomIndex (Some (newEntity difficulty d)))]
      | None =>
          (* the index is undefined: the copy gets a property, no element *)
          [setGrid (fun prev => prev)]
      end.

(** ** Game.tsx: [handleWhack] *)

Definition markHit (e : GameEntity) : GameEntity :=
  {| id := id e; type := type e; spawnTime := spawnTime e;
     duration := duration e; isHit := true |}.

Definition markHitAt (index : Z) (prev : GridState) : GridState :=
  match array_get prev index with
  | Some (Some e) => array_set prev index (Some (markHit e))
  | _ => prev
  end.

(** What a run of [handleWhack] leaves: the updates it enqueued, in order,
    and how it completed; a normal completion carries the sound engine as
    the call left it and the audio calls made. *)
Record Whack : Type := mkWhack {
  enqueued : list Update;
  completion : Completion (SoundEngine * list AudioCall)
}.

Definition handleWhack (env : AudioEnv) (eng : SoundEngine)
    (rendered : GameState) (index : Z) : Whack :=
  match array_get (grid rendered) index with
  | Some (Some entity) =>
      if isHit entity then mkWhack [] (Normal (eng, []))
      else
        let marked := setGrid (markHitAt index) in
        match type entity with
        | bomb =>
            match playBomb env eng with
            | Throw msg => mkWhack [marked] (Throw msg)
            | Normal r =>
                mkWhack [marked; setLives (loseLife (score rendered))] (Normal r)
            end
        | golden =>
            match playGolden env eng with
            | Throw msg => mkWhack [marked] (Throw msg)
            | Normal r => mkWhack [marked; setScore (fun s => s + 3)] (Normal r)
            end
        | mole =>
            match playWhack env eng with
            | Throw msg => mkWhack [marked] (Throw msg)
            | Normal r => mkWhack [marked; setScore (fun s => s + 1)] (Normal r)
            end
        end
  | _ => mkWhack [] (Normal (eng, []))
  end.

(** ** Game.tsx: the animation-frame [loop] *)

Definition remaining (start now : Z) : float :=
  let elapsed := (ofZ (now - start) / 1000)%float in
  Math_max (GAME_DURATION - elapsed)%float 0.

Definition despawn (now : Z) (slot : option GameEntity) : option GameEntity :=
  match slot with
  | None => None
  | Some entity =>
      if isHit entity && gt (ofZ (now - spawnTime entity)) (duration entity + 500)%float
      then None
      else if negb (isHit entity) && gt (ofZ (now - spawnTime entity)) (duration entity)
      then None
      else Some entity
  end.

Definition currentSpawnInterval (newTimeLeft : float) : float :=
  let difficulty := ((GAME_DURATION - newTimeLeft) / GAME_DURATION)%float in
  (SPAWN_INTERVAL_START - difficulty * (SPAWN_INTERVAL_START - SPAWN_INTERVAL_END))%float.

Definition loop (rendered : GameState) (refs : GameRefs) (now : Z) (d : Draws)
  : GameRefs * list Update :=
  if isPaused rendered then (refs, [host requestAnimationFrame])
  else
    let newTimeLeft := remaining (startTime refs) now in
    if le newTimeLeft 0
    then (refs, [setTimeLeft newTimeLeft; host (onGameOver (score rendered))])
    else
      let sweep := setGrid (fmap (despawn now)) in
      if gt (ofZ (now - lastSpawnTime refs)) (currentSpawnInterval newTimeLeft)
      then (setLastSpawnTime refs now,
            [setTimeLeft newTimeLeft; sweep] ++ spawnEntity rendered d
              ++ [host requestAnimationFrame])
      else (refs, [setTimeLeft newTimeLeft; sweep; host requestAnimationFrame]).

(** The state after a handler of the render [rendered] ran while the state
    was [current]: React applies the enqueued updates to [current]. *)
Definition rerender (updates : list Update) (current : GameState) : GameState :=
  (flushUpdates updates current).1.

(** ** Hole.tsx *)

(** [handleInteraction] of the hole element rendered with [entity] and
    [index]: the calls it makes to its [onWhack]. *)
Definition handleInteraction (entity : option GameEntity) (index : Z) : list Z :=
  match entity with
  | Some e => if negb (isHit e) then [index] else []
  | None => []
  end.

(** The props of the holes one render of [Game] creates: the slot's entity
    and its position; their [onWhack] is the [handleWhack] of that
    render. *)
Definition holes (rendered : GameState) : list (option GameEntity * Z) :=
  imap (fun i entity => (entity, Z.of_nat i)) (grid rendered).

(** ** Vocabulary of the statements *)

(** The guard of [handleWhack] stops the call: the slot is empty, outside
    the grid, or its entity is already hit. *)
Definition blocked (g : GridState) (index : Z) : bool :=
  match array_get g index with
  | Some (Some entity) => isHit entity
  | _ => true
  end.

(** ** Frames and hits of the latest render

    The state and refs after a frame whose [loop] belongs to the latest
    render, and the state after a hit whose [handleWhack] belongs to the
    render [rendered]. *)

Definition frame (now : Z) (d : Draws) (sr : GameState * GameRefs) : GameState * GameRefs :=
  let '(r, updates) := loop sr.1 sr.2 now d in (rerender updates sr.1, r).

Definition whack (env : AudioEnv) (eng : SoundEngine) (rendered : GameState) (index : Z)
    (current : GameState) : GameState :=
  rerender (enqueued (handleWhack env eng rendered index)) current.

(** [Game] mounted at time [t0]. *)
Definition mounted_at (t0 : Z) : GameState * GameRefs := (initialState, mkRefs 0 t0 0).

Definition moleDraws (hole : float) (name : string) (t : Z) : Draws :=
  mkDraws hole 0.5 name t.

(** A round mounted at 1000 whose first frame comes at 20425 and leaves
    10.575 s on display; the frame at 21000 then spawns a mole into hole 1
    with difficulty 0.6475000000000001 and duration 981.9999999999999. *)
Definition lateRound : GameState * GameRefs :=
  frame 21000 (moleDraws 0 "b" 21000)
    (frame 20425 (moleDraws 0 "a" 20425) (mounted_at 1000)).

(** A round mounted at 1000 whose first frame comes at 15400 and spawns a
    mole into hole 0, which is hit; at 16000 half of the round is over and
    the spawn interval is exactly 600 ms. *)
Definition halfTime : GameState * GameRefs :=
  let '(s, r) := frame 15400 (moleDraws 0 "a" 15400) (mounted_at 1000) in
  (whack audible soundEngine s 0 s, r).

End Double.

(** ** App.tsx: handlers with their sound calls *)

(** [handleGameOver] as the render [rendered] created it, run when the
    state is [prev]: [setLastScore] and [setHighScore] are enqueued before
    [playGameOver] is called, [setStatus] after it, so when the sound call
    throws the scores are set and the status is not. *)
Definition handleGameOverWithSound (env : AudioEnv) (rendered prev : AppState) (s : Sound)
    (finalScore : Z) : AppState * Completion (Sound * list AudioCall) :=
  let newHighScore :=
    if highScore rendered <? finalScore then finalScore else highScore prev in
  match playGameOver env (engine s) with
  | Throw msg => (mkApp (status prev) finalScore newHighScore, Throw msg)
  | Normal (eng, calls) =>
      (mkApp GAME_OVER finalScore newHighScore, Normal (mkSound (isMuted s) eng, calls))
  end.

(** A click on a start button, at [now]: [startGame] runs, and the same
    click reaches the window listener of the idle effect, before or after
    the re-render ([listenerFirst]).  When [startGame] throws no state
    changes and the click is a plain touch of the page. *)
Definition pressStart (env : AudioEnv) (s : Sound) (listenerFirst : bool)
    (k : Kiosk) (now : Z) : Kiosk :=
  match startGameWithSound env (page k) s with
  | Normal (a, _, _) =>
      if listenerFirst then renderPage (resetIdleTimer k now) a
      else resetIdleTimer (renderPage k a) now
  | Throw _ => resetIdleTimer k now
  end.

(** * Properties *)

(** ** Comparisons and arrays *)

Lemma gt_true (a b : Q) : gt a b = true <-> (b < a)%Q.
Proof.
  unfold gt. rewrite Bool.negb_true_iff, <- Bool.not_true_iff_false, Qle_bool_iff.
  split; [apply Qnot_le_lt | apply Qlt_not_le].
Qed.

Lemma gt_false (a b : Q) : gt a b = false <-> (a <= b)%Q.
Proof.
  unfold gt. rewrite Bool.negb_false_iff. apply Qle_bool_iff.
Qed.

Lemma le_true (a b : Q) : le a b = true <-> (a <= b)%Q.
Proof. apply Qle_bool_iff. Qed.

Lemma le_false (a b : Q) : le a b = false <-> (b < a)%Q.
Proof.
  unfold le. rewrite <- Bool.not_true_iff_false, Qle_bool_iff.
  split; [apply Qnot_le_lt | apply Qlt_not_le].
Qed.

Section Arrays.
Context {A : Type}.
Implicit Types (arr : list (option A)) (i : Z) (n : nat) (v : option A).

Lemma array_get_Some {B : Type} (l : list B) i (x : B) :
  array_get l i = Some x <-> 0 <= i /\ l !! Z.to_nat i = Some x.
Proof.
  unfold array_get. destruct (Z.ltb_spec i 0); split.
  - discriminate.
  - intros [? _]. lia.
  - auto.
  - intros [_ ?]. assumption.
Qed.

Lemma array_set_inside arr i v :
  0 <= i -> (Z.to_nat i < length arr)%nat ->
  array_set arr i v = <[Z.to_nat i := v]> arr.
Proof.
  intros Hi Hlt. unfold array_set.
  destruct (Z.ltb_spec i 0); [lia |].
  destruct (Nat.ltb_spec (Z.to_nat i) (length arr)); [done | lia].
Qed.

(** Reading position [n] of a stored-into array: a position that existed
    before either is the one written or keeps its value. *)
Lemma array_set_lookup_old arr i v n :
  (n < length arr)%nat ->
  array_set arr i v !! n
  = if decide (0 <= i /\ Z.to_nat i = n) then Some v else arr !! n.
Proof.
  intros Hn. unfold array_set.
  destruct (Z.ltb_spec i 0).
  { case_decide; [lia | done]. }
  destruct (Nat.ltb_spec (Z.to_nat i) (length arr)).
  - case_decide as Hd.
    + destruct Hd as [_ <-]. by apply list_lookup_insert_eq.
    + apply list_lookup_insert_ne. intros Heq. apply Hd. split; [lia | done].
  - case_decide; [lia |]. by apply lookup_app_l.
Qed.

End Arrays.

(** ** The host only touches the page, never the component *)

Lemma foldl_perform_game (now : Z) (cs : list HostCall) (w : World) :
  game (foldl (perform now) w cs) = game w
  /\ refs (foldl (perform now) w cs) = refs w
  /\ clock (foldl (perform now) w cs) = clock w.
Proof.
  revert w. induction cs as [| c cs IH]; intros w; simpl; [done |].
  destruct (IH (perform now w c)) as (-> & -> & ->). by destruct c.
Qed.

Lemma commit_game (now : Z) (w : World) (r : GameRefs) (us : list Update) :
  game (commit now w r us) = (flushUpdates us (game w)).1.
Proof.
  unfold commit. destruct (flushUpdates us (game w)) as [g cs].
  by destruct (foldl_perform_game now cs (mkWorld (appState w) g r (timers w) (reports w) now))
    as (-> & _).
Qed.

Lemma commit_refs (now : Z) (w : World) (r : GameRefs) (us : list Update) :
  refs (commit now w r us) = r.
Proof.
  unfold commit. destruct (flushUpdates us (game w)) as [g cs].
  by destruct (foldl_perform_game now cs (mkWorld (appState w) g r (timers w) (reports w) now))
    as (_ & -> & _).
Qed.

Lemma commit_clock (now : Z) (w : World) (r : GameRefs) (us : list Update) :
  clock (commit now w r us) = now.
Proof.
  unfold commit. destruct (flushUpdates us (game w)) as [g cs].
  by destruct (foldl_perform_game now cs (mkWorld (appState w) g r (timers w) (reports w) now))
    as (_ & _ & ->).
Qed.

(** ** Empty holes *)

Lemma emptyIndices_spec (g : GridState) (k : Z) :
  In k (emptyIndices g) -> exists n, k = Z.of_nat n /\ g !! n = Some None.
Proof.
  unfold emptyIndices. rewrite filter_In, <- list_elem_of_In, elem_of_lookup_imap.
  intros [(n & slot & Hk & Hn) Hne].
  destruct slot as [e |].
  - subst k. discriminate.
  - by exists n.
Qed.

(** The three ways [spawnEntity] can end. *)
Lemma spawnEntity_cases (rendered : GameState) (d : Draws) :
  spawnEntity rendered d = []
  \/ spawnEntity rendered d = [setGrid (fun prev => prev)]
  \/ exists n,
       grid rendered !! n = Some None
       /\ Z.of_nat (currentCount (grid rendered))
          < maxConcurrent (getDifficulty (timeLeft rendered))
       /\ spawnEntity rendered d
          = [setGrid (fun prev =>
               array_set prev (Z.of_nat n)
                 (Some (newEntity (getDifficulty (timeLeft rendered)) d)))].
Proof.
  unfold spawnEntity.
  destruct (Z.leb_spec (maxConcurrent (getDifficulty (timeLeft rendered)))
              (Z.of_nat (currentCount (grid rendered)))) as [| Hcap]; [by left |].
  destruct (length (emptyIndices (grid rendered)) =? 0)%nat; [by left |].
  destruct (array_get _ _) as [k |] eqn:Hk; [| by right; left].
  right; right.
  apply array_get_Some in Hk as [_ Hk].
  apply list_elem_of_lookup_2, list_elem_of_In, emptyIndices_spec in Hk as (n & -> & Hn).
  by exists n.
Qed.

Lemma rollType_spec (r : Q) :
  (rollType r = bomb <-> (0.85 < r)%Q)
  /\ (rollType r = golden <-> (0.7 < r)%Q /\ (r <= 0.85)%Q)
  /\ (rollType r = mole <-> (r <= 0.7)%Q).
Proof.
  unfold rollType.
  destruct (gt r 0.85) eqn:H1; [apply gt_true in H1 | apply gt_false in H1];
    (destruct (gt r 0.7) eqn:H2; [apply gt_true in H2 | apply gt_false in H2]);
    repeat split; intros; try discriminate; try tauto; try lra.
Qed.

(** C7. Whenever [spawnEntity] puts an entity [e] into a hole that was
    empty, the type of [e] is decided by the type roll [r] alone: bomb
    exactly when [r > 0.85], golden exactly when [0.7 < r <= 0.85], mole
    exactly when [r <= 0.7]. *)
Theorem spawned_type_by_roll (rendered : GameState) (d : Draws) (n : nat) (e : GameEntity) :
  grid rendered !! n = Some None ->
  grid (flushUpdates (spawnEntity rendered d) rendered).1 !! n = Some (Some e) ->
  (type e = bomb <-> (0.85 < typeRoll d)%Q)
  /\ (type e = golden <-> (0.7 < typeRoll d)%Q /\ (typeRoll d <= 0.85)%Q)
  /\ (type e = mole <-> (typeRoll d <= 0.7)%Q).
Proof.
  intros Hempty Hnew.
  assert (type e = rollType (typeRoll d)) as ->; [| apply rollType_spec].
  revert Hnew.
  destruct (spawnEntity_cases rendered d) as [-> | [-> | (m & _ & _ & ->)]];
    simpl; try congruence.
  rewrite array_set_lookup_old by (by eapply lookup_lt_Some).
  case_decide; [| congruence].
  by intros [= <-].
Qed.

Lemma spawned_type_by_roll_witness :
  let rendered := game (mount 1000) in
  let d := bombDraws 0 "a" 1016 in
  grid rendered !! 0%nat = Some None
  /\ type (newEntity (getDifficulty (timeLeft rendered)) d) = bomb
  /\ (0.85 < typeRoll d)%Q.
Proof.
  intros rendered d.
  pose proof (spawned_type_by_roll rendered d 0
                (newEntity (getDifficulty (timeLeft rendered)) d)
                eq_refl eq_refl) as (Hbomb & _ & _).
  split; [reflexivity |]. split; [reflexivity |].
  apply Hbomb. reflexivity.
Defined.

(** ** What a click does *)

Lemma handleWhack_blocked (rendered : GameState) (index : Z) :
  blocked (grid rendered) index = true -> handleWhack rendered index = Normal [].
Proof.
  unfold blocked, handleWhack.
  destruct (array_get (grid rendered) index) as [[e |] |]; try done.
  by intros ->.
Qed.

Lemma step_click_blocked (w : World) (now index : Z) :
  blocked (grid (game w)) index = true -> step w (Click now index) = idleUntil now w.
Proof.
  intros Hb. simpl. destruct (mounted w); [| done].
  by rewrite handleWhack_blocked.
Qed.

Lemma markHitAt_unhit (g : GridState) (index : Z) (e : GameEntity) :
  array_get g index = Some (Some e) ->
  markHitAt index g = <[Z.to_nat index := Some (markHit e)]> g.
Proof.
  intros Hget. unfold markHitAt. rewrite Hget.
  apply array_get_Some in Hget as [Hi Hn].
  apply array_set_inside; [done | by eapply lookup_lt_Some].
Qed.

(** The state after a click on an entity that was not hit yet. *)
Lemma step_click_hit (w : World) (now index : Z) (e : GameEntity) :
  mounted w = true ->
  array_get (grid (game w)) index = Some (Some e) ->
  isHit e = false ->
  game (step w (Click now index))
  = mkGame (<[Z.to_nat index := Some (markHit e)]> (grid (game w)))
           (score (game w) + points (ENTITY_CONFIG (type e)))
           (timeLeft (game w))
           (lives (game w) - lifeCost (type e))
           (isPaused (game w))
  /\ refs (step w (Click now index)) = refs w.
Proof.
  intros Hm Hget Hhit. simpl. rewrite Hm. unfold handleWhack. rewrite Hget, Hhit.
  rewrite commit_game, commit_refs. split; [| done].
  destruct (type e); simpl; rewrite (markHitAt_unhit _ _ _ Hget);
    f_equal; lia.
Qed.



(** ** What a frame does *)

Lemma step_frame (w : World) (now : Z) (d : Draws) :
  frameOutcome w now d (step w (Frame now d)).
Proof.
  simpl. destruct (mounted w) eqn:Hm.
  { unfold loop. destruct (isPaused (game w)) eqn:Hp.
    { apply frame_idle; rewrite ?commit_game, ?commit_refs; auto. }
    destruct (le _ 0) eqn:Hle.
    { apply le_true in Hle.
      apply frame_final; rewrite ?commit_game, ?commit_refs; simpl; rewrite ?Hp; auto. }
    apply le_false in Hle.
    destruct (gt _ _).
    - destruct (spawnEntity_cases (game w) d) as [Hs | [Hs | (n & Hn & Hcap & Hs)]];
        rewrite Hs.
      + eapply frame_running; rewrite ?commit_game, ?commit_refs; simpl; rewrite ?Hp;
          eauto; by left.
      + eapply frame_running; rewrite ?commit_game, ?commit_refs; simpl; rewrite ?Hp;
          eauto; by left.
      + eapply frame_running with
          (G := <[n := Some (newEntity (getDifficulty (timeLeft (game w))) d)]>
                  (despawn now <$> grid (game w)));
          rewrite ?commit_game, ?commit_refs; simpl; rewrite ?Hp; eauto.
        * right. by exists n.
        * rewrite array_set_inside, Nat2Z.id; [done | lia |].
          rewrite length_fmap, Nat2Z.id. by eapply lookup_lt_Some.
    - eapply frame_running; rewrite ?commit_game, ?commit_refs; simpl; rewrite ?Hp;
        eauto; by left. }
  apply frame_idle; auto.
Qed.

Lemma step_clock (w : World) (e : Event) : clock (step w e) = eventTime e.
Proof.
  destruct e as [now d | now index | now | now paused]; simpl.
  - destruct (mounted w); [| done].
    destruct (loop (game w) (refs w) now d). apply commit_clock.
  - destruct (mounted w); [| done].
    destruct (handleWhack (game w) index); [apply commit_clock | done].
  - destruct (timers w) as [| [due s] rest]; [done |]. by destruct (due <=? now).
  - by destruct (mounted w && _).
Qed.

(** What a click leaves of the component: nothing changed, or one entity
    marked. *)
Lemma step_click_cases (w : World) (now index : Z) :
  step w (Click now index) = idleUntil now w
  \/ exists e,
       mounted w = true
       /\ array_get (grid (game w)) index = Some (Some e)
       /\ isHit e = false
       /\ game (step w (Click now index))
          = mkGame (<[Z.to_nat index := Some (markHit e)]> (grid (game w)))
                   (score (game w) + points (ENTITY_CONFIG (type e)))
                   (timeLeft (game w))
                   (lives (game w) - lifeCost (type e))
                   (isPaused (game w))
       /\ refs (step w (Click now index)) = refs w.
Proof.
  destruct (blocked (grid (game w)) index) eqn:Hb.
  { left. by apply step_click_blocked. }
  destruct (mounted w) eqn:Hm.
  2:{ left. simpl. by rewrite Hm. }
  right. unfold blocked in Hb.
  destruct (array_get (grid (game w)) index) as [[e |] |] eqn:Hget; try done.
  exists e. destruct (step_click_hit w now index e Hm Hget Hb) as [Hg Hr]. eauto 10.
Qed.

(** Timeouts and pausing leave grid, score, lives and remaining time alone. *)
Lemma step_timer_game (w : World) (now : Z) :
  game (step w (TimerFire now)) = game w /\ refs (step w (TimerFire now)) = refs w.
Proof.
  simpl. destruct (timers w) as [| [due s] rest]; [done |]. by destruct (due <=? now).
Qed.

Lemma step_paused_game (w : World) (now : Z) (paused : bool) :
  let w' := step w (SetPaused now paused) in
  grid (game w') = grid (game w) /\ score (game w') = score (game w)
  /\ lives (game w') = lives (game w) /\ timeLeft (game w') = timeLeft (game w).
Proof. simpl. by destruct (mounted w && _). Qed.

(** ** The grid keeps its twelve holes *)

Lemma frameGrid_length (s : GameState) (now : Z) (d : Draws) (G : GridState) :
  frameGrid s now d G -> length G = length (grid s).
Proof.
  intros [-> | (n & _ & _ & ->)]; by rewrite ?length_insert, length_fmap.
Qed.

Lemma reachable_grid_length (w : World) :
  reachable w -> length (grid (game w)) = GRID_SIZE.
Proof.
  induction 1 as [t0 _ | w e Hw IH Ht]; [done |].
  destruct e as [now d | now index | now | now paused].
  - destruct (step_frame w now d) as [w' _ -> _ | w' _ _ _ -> _ | w' G _ _ _ HG -> _ _];
      simpl; [done .. |].
    by rewrite (frameGrid_length _ _ _ _ HG).
  - destruct (step_click_cases w now index) as [-> | (e & _ & _ & _ & -> & _)];
      simpl; [done |].
    by rewrite length_insert.
  - by destruct (step_timer_game w now) as [-> _].
  - by destruct (step_paused_game w now paused) as [-> _].
Qed.

(** C9 (as the code has it). For an index outside the grid, below 0 or at
    least 12, [handleWhack] returns normally without enqueueing anything:
    the click leaves the round as it was.  No assertion rejects it. *)
Theorem whack_out_of_bounds_ignored (w : World) (now index : Z) :
  reachable w ->
  index < 0 \/ Z.of_nat GRID_SIZE <= index ->
  handleWhack (game w) index = Normal []
  /\ step w (Click now index) = idleUntil now w.
Proof.
  intros Hw Hout.
  assert (blocked (grid (game w)) index = true) as Hb.
  { unfold blocked, array_get. destruct (Z.ltb_spec index 0); [done |].
    rewrite lookup_ge_None_2; [done |].
    rewrite (reachable_grid_length w Hw). lia. }
  split; [by apply handleWhack_blocked | by apply step_click_blocked].
Qed.

Lemma whack_out_of_bounds_ignored_witness :
  handleWhack (game (mount 1000)) (-1) = Normal []
  /\ step (mount 1000) (Click 1100 (-1)) = idleUntil 1100 (mount 1000).
Proof.
  apply (whack_out_of_bounds_ignored (mount 1000) 1100 (-1)).
  - apply reach_mount. lia.
  - left. lia.
Defined.

(** C9 as stated fails: index 12 on the fresh grid of twelve holes is not
    rejected; the call completes normally and is a silent no-op. *)
Lemma whack_out_of_bounds_not_rejected :
  array_get (grid (game (mount 1000))) 12 = None
  /\ handleWhack (game (mount 1000)) 12 = Normal []
  /\ (forall msg, handleWhack (game (mount 1000)) 12 <> Throw msg)
  /\ step (mount 1000) (Click 1100 12) = idleUntil 1100 (mount 1000).
Proof. repeat split. intros msg. discriminate. Qed.

(** ** A frame leaves score and lives alone *)

Lemma step_frame_score_lives (w : World) (now : Z) (d : Draws) :
  score (game (step w (Frame now d))) = score (game w)
  /\ lives (game (step w (Frame now d))) = lives (game w).
Proof.
  by destruct (step_frame w now d) as [w' _ -> _ | w' _ _ _ -> _ | w' G _ _ _ _ -> _ _].
Qed.

(** ** Remaining time *)

Lemma remaining_mono (start now1 now2 : Z) :
  now1 <= now2 -> (remaining start now2 <= remaining start now1)%Q.
Proof.
  intros Hle. unfold remaining. apply Q.max_le_compat_r.
  assert (inject_Z (now1 - start) <= inject_Z (now2 - start))%Q as H.
  { rewrite <- Zle_Qle. lia. }
  assert (inject_Z (now1 - start) / 1000 <= inject_Z (now2 - start) / 1000)%Q.
  { apply Qmult_le_compat_r; [done | discriminate]. }
  unfold GAME_DURATION. lra.
Qed.

Lemma remaining_shift (start tp tr : Z) :
  remaining (start + (tr - tp)) tr = remaining start tp.
Proof.
  unfold remaining. by replace (tr - (start + (tr - tp))) with (tp - start) by lia.
Qed.

Lemma getDifficulty_antitone (t1 t2 : Q) :
  (t1 <= t2)%Q -> (getDifficulty t2 <= getDifficulty t1)%Q.
Proof.
  intros Hle. unfold getDifficulty.
  apply Q.min_le_compat_r, Q.max_le_compat_r.
  apply Qmult_le_compat_r; [unfold GAME_DURATION; lra | discriminate].
Qed.

Lemma maxConcurrent_mono (d1 d2 : Q) :
  (d1 <= d2)%Q -> maxConcurrent d1 <= maxConcurrent d2.
Proof.
  intros Hle. unfold maxConcurrent.
  assert (Qfloor (d1 * 2) <= Qfloor (d2 * 2)); [| lia].
  apply Qfloor_resp_le. lra.
Qed.

Lemma timeInv_frozen (w w' : World) :
  timeInv w -> clock w <= clock w' ->
  isPaused (game w') = isPaused (game w) ->
  timeLeft (game w') = timeLeft (game w) ->
  refs w' = refs w ->
  timeInv w'.
Proof.
  unfold timeInv. intros [Hc Hinv] Hclock -> -> ->. split; [lia |].
  destruct (isPaused (game w)).
  - destruct Hinv as [Hp Hle]. split; [lia | done].
  - destruct Hinv as [Hp Hle]. split; [done |].
    eapply Qle_trans; [by apply remaining_mono | done].
Qed.

Lemma timeInv_step (w : World) (e : Event) :
  timeInv w -> clock w <= eventTime e -> timeInv (step w e).
Proof.
  intros Hinv Ht. pose proof (step_clock w e) as Hclock.
  destruct e as [now d | now index | now | now paused]; cbn [eventTime] in Ht, Hclock.
  - destruct (step_frame w now d)
      as [w' _ Hg Hr | w' _ Hp _ Hg Hr | w' G _ Hp _ _ Hg Hs Hpt].
    + apply (timeInv_frozen w); rewrite ?Hg, ?Hclock; auto.
    + destruct Hinv as [Hc Hinv]. rewrite Hp in Hinv. destruct Hinv as [Hz _].
      split; [lia |]. rewrite Hg, Hr, Hclock. simpl. split; [done | apply Qle_refl].
    + destruct Hinv as [Hc Hinv]. rewrite Hp in Hinv. destruct Hinv as [Hz _].
      split; [lia |]. rewrite Hg, Hs, Hpt, Hclock. simpl. split; [done | apply Qle_refl].
  - destruct (step_click_cases w now index) as [Heq | (e & _ & _ & _ & Hg & Hr)].
    + rewrite Heq. by apply (timeInv_frozen w).
    + apply (timeInv_frozen w); rewrite ?Hg, ?Hclock; auto.
  - destruct (step_timer_game w now) as [Hg Hr].
    apply (timeInv_frozen w); rewrite ?Hg, ?Hclock; auto.
  - clear Hclock. simpl.
    destruct (mounted w && negb (Bool.eqb paused (isPaused (game w)))) eqn:Hchg.
    2:{ by apply (timeInv_frozen w). }
    apply andb_true_iff in Hchg as [_ Hchg].
    destruct Hinv as [Hc Hinv]. unfold timeInv, pauseEffect. simpl.
    split; [lia |].
    destruct paused, (isPaused (game w)); try discriminate; simpl.
    + destruct Hinv as [_ Hle]. split; [lia |].
      eapply Qle_trans; [by apply remaining_mono | done].
    + destruct Hinv as [Hp Hle].
      destruct (Z.ltb_spec 0 (pausedTime (refs w))); [| lia]. simpl.
      split; [done |]. by rewrite remaining_shift.
Qed.

Lemma reachable_timeInv (w : World) : reachable w -> timeInv w.
Proof.
  induction 1 as [t0 Ht0 | w e _ IH Ht]; [| by apply timeInv_step].
  split; [done |]. simpl. split; [done |].
  unfold remaining. rewrite Z.sub_diag. done.
Qed.

(** No event makes the remaining time grow. *)
Lemma timeLeft_step_le (w : World) (e : Event) :
  timeInv w -> clock w <= eventTime e ->
  (timeLeft (game (step w e)) <= timeLeft (game w))%Q.
Proof.
  intros [Hc Hinv] Ht.
  destruct e as [now d | now index | now | now paused]; simpl in Ht.
  - destruct (step_frame w now d)
      as [w' _ -> _ | w' _ Hp _ -> _ | w' G _ Hp _ _ -> _ _];
      [apply Qle_refl | ..]; simpl; rewrite Hp in Hinv; destruct Hinv as [_ Hle];
      (eapply Qle_trans; [by apply remaining_mono | done]).
  - destruct (step_click_cases w now index) as [-> | (e & _ & _ & _ & -> & _)];
      apply Qle_refl.
  - destruct (step_timer_game w now) as [-> _]. apply Qle_refl.
  - destruct (step_paused_game w now paused) as (_ & _ & _ & ->). apply Qle_refl.
Qed.

(** ** Pausing *)

Lemma step_frame_paused (w : World) (now : Z) (d : Draws) :
  isPaused (game w) = true -> step w (Frame now d) = idleUntil now w.
Proof.
  intros Hp. simpl. destruct (mounted w); [| done].
  unfold loop. by rewrite Hp.
Qed.

Lemma run_cons (w : World) (e : Event) (es : list Event) :
  run w (e :: es) = run (step w e) es.
Proof. reflexivity. Qed.

Lemma run_frames_paused (fs : list (Z * Draws)) (w : World) :
  isPaused (game w) = true ->
  game (run w (frames fs)) = game w
  /\ refs (run w (frames fs)) = refs w
  /\ appState (run w (frames fs)) = appState w.
Proof.
  revert w. induction fs as [| [now d] fs IH]; intros w Hp; [done |].
  change (frames ((now, d) :: fs)) with (Frame now d :: frames fs).
  rewrite run_cons, (step_frame_paused w now d Hp).
  by destruct (IH (idleUntil now w) Hp) as (-> & -> & ->).
Qed.

(** C6. Start from a reachable round that is playing, pause it at [tp],
    let any number of frames go by, and resume at [tr].  The frames that
    ran while paused changed neither the component state (so not the
    remaining time) nor its refs; resuming moves [startTime] forward by
    exactly [tr - tp], so the remaining time computed at the moment of
    resuming is the one computed at the moment of pausing; and while
    playing no event whose time is not in the past makes the remaining
    time on display grow. *)
Theorem pause_freezes_time (w : World) (tp tr : Z) (fs : list (Z * Draws)) :
  reachable w ->
  mounted w = true ->
  isPaused (game w) = false ->
  clock w <= tp ->
  let wp := step w (SetPaused tp true) in
  let wq := run wp (frames fs) in
  let wr := step wq (SetPaused tr false) in
  (game wq = game wp /\ refs wq = refs wp)
  /\ timeLeft (game wp) = timeLeft (game w)
  /\ timeLeft (game wr) = timeLeft (game w)
  /\ isPaused (game wr) = false
  /\ startTime (refs wr) = startTime (refs w) + (tr - tp)
  /\ remaining (startTime (refs wr)) tr = remaining (startTime (refs w)) tp
  /\ (forall e : Event, clock w <= eventTime e ->
        (timeLeft (game (step w e)) <= timeLeft (game w))%Q).
Proof.
  intros Hw Hm Hp Htp wp wq wr.
  pose proof (reachable_timeInv w Hw) as Hinv.
  assert (wp = mkWorld (appState w)
                 (mkGame (grid (game w)) (score (game w)) (timeLeft (game w))
                         (lives (game w)) true)
                 (mkRefs (lastSpawnTime (refs w)) (startTime (refs w)) tp)
                 (timers w) (reports w) tp) as Hwp.
  { subst wp. simpl. rewrite Hm, Hp. simpl. unfold pauseEffect. simpl. done. }
  destruct (run_frames_paused fs wp) as (Hg & Hr & Ha); [by rewrite Hwp |].
  fold wq in Hg, Hr, Ha.
  assert (0 < tp) as Hpos by (destruct Hinv; lia).
  assert (game wr = mkGame (grid (game w)) (score (game w)) (timeLeft (game w))
                      (lives (game w)) false
          /\ refs wr = mkRefs (lastSpawnTime (refs w))
                         (startTime (refs w) + (tr - tp)) 0) as [Hgr Hrr].
  { subst wr. simpl. unfold mounted. rewrite Ha, Hg, Hr, Hwp. simpl.
    unfold mounted in Hm. rewrite Hm. simpl. unfold pauseEffect. simpl.
    destruct (Z.ltb_spec 0 tp); [done | lia]. }
  split; [done |].
  split; [by rewrite Hwp |].
  rewrite Hgr, Hrr. simpl.
  repeat split; [apply remaining_shift |].
  intros e He. by apply timeLeft_step_le.
Qed.

(** Paused at 5000 for three seconds, with two frames in between. *)
Lemma pause_freezes_time_witness :
  let w := step (mount 1000) (Frame 1016 (bombDraws 0 "a" 1016)) in
  let wp := step w (SetPaused 5000 true) in
  let wq := run wp (frames [(6000, bombDraws 0 "b" 6000); (7000, bombDraws 0 "c" 7000)]) in
  let wr := step wq (SetPaused 8000 false) in
  game wq = game wp
  /\ startTime (refs wr) = 4000
  /\ remaining (startTime (refs wr)) 8000 = remaining (startTime (refs w)) 5000
  /\ (timeLeft (game (step w (Frame 2000 (bombDraws 0 "b" 2000)))) <= timeLeft (game w))%Q.
Proof.
  intros w wp wq wr.
  assert (reachable w) as Hw.
  { apply reach_step; [apply reach_mount; lia | simpl; lia]. }
  assert (clock w <= 5000) as Hc by (simpl; lia).
  pose proof (pause_freezes_time w 5000 8000
                [(6000, bombDraws 0 "b" 6000); (7000, bombDraws 0 "c" 7000)]
                Hw eq_refl eq_refl Hc) as ((Hg & _) & _ & _ & _ & Hs & Hrem & Hmono).
  split; [exact Hg |]. split; [exact Hs |]. split; [exact Hrem |].
  apply Hmono. simpl. lia.
Defined.

(** ** The concurrency cap *)

Lemma currentCount_cons (x : option GameEntity) (g : GridState) :
  currentCount (x :: g) = ((if unhit x then 1 else 0) + currentCount g)%nat.
Proof. unfold currentCount. simpl. by destruct (unhit x). Qed.

Lemma unhit_despawn (now : Z) (x : option GameEntity) :
  unhit (despawn now x) = true -> unhit x = true.
Proof.
  destruct x as [e |]; [| done]. simpl.
  destruct (isHit e && _); [done |]. by destruct (negb (isHit e) && _).
Qed.

Lemma currentCount_despawn (now : Z) (g : GridState) :
  (currentCount (despawn now <$> g) <= currentCount g)%nat.
Proof.
  induction g as [| x g IH]; [done |].
  rewrite fmap_cons, !currentCount_cons.
  pose proof (unhit_despawn now x) as Hx.
  destruct (unhit (despawn now x)), (unhit x); lia || discriminate (Hx eq_refl).
Qed.

Lemma currentCount_insert (g : GridState) (n : nat) (x y : option GameEntity) :
  g !! n = Some x ->
  (currentCount (<[n := y]> g) + (if unhit x then 1 else 0)
   = currentCount g + (if unhit y then 1 else 0))%nat.
Proof.
  revert n. induction g as [| z g IH]; intros n Hn; [done |].
  destruct n as [| n]; simpl in Hn.
  - injection Hn as ->. simpl. rewrite !currentCount_cons. lia.
  - simpl. rewrite !currentCount_cons. specialize (IH n Hn). lia.
Qed.

Lemma capInv_weaken (w w' : World) :
  capInv w ->
  (timeLeft (game w') <= timeLeft (game w))%Q ->
  (currentCount (grid (game w')) <= currentCount (grid (game w)))%nat ->
  capInv w'.
Proof.
  unfold capInv. intros Hcap Ht Hc.
  pose proof (maxConcurrent_mono _ _ (getDifficulty_antitone _ _ Ht)). lia.
Qed.

Lemma capInv_step (w : World) (e : Event) :
  timeInv w -> capInv w -> clock w <= eventTime e -> capInv (step w e).
Proof.
  intros Hinv Hcap Ht.
  pose proof (timeLeft_step_le w e Hinv Ht) as Hle.
  destruct e as [now d | now index | now | now paused].
  - destruct (step_frame w now d)
      as [w' _ Hg _ | w' _ _ _ Hg _ | w' G _ _ _ HG Hg _ _].
    + apply (capInv_weaken w); [done | done | by rewrite Hg].
    + apply (capInv_weaken w); [done | done | by rewrite Hg].
    + destruct HG as [-> | (n & Hn & Hroom & ->)].
      * apply (capInv_weaken w); auto. rewrite Hg. apply currentCount_despawn.
      * unfold capInv.
        pose proof (maxConcurrent_mono _ _ (getDifficulty_antitone _ _ Hle)) as Hmono.
        rewrite Hg in *. simpl in *.
        pose proof (currentCount_despawn now (grid (game w))) as Hsweep.
        pose proof (currentCount_insert (despawn now <$> grid (game w)) n None
                      (Some (newEntity (getDifficulty (timeLeft (game w))) d))) as Hins.
        rewrite list_lookup_fmap, Hn in Hins. specialize (Hins eq_refl).
        simpl in Hins. lia.
  - destruct (step_click_cases w now index) as [Heq | (e & _ & Hget & Hhit & Hg & _)].
    + rewrite Heq. exact Hcap.
    + apply (capInv_weaken w); auto. rewrite Hg. simpl.
      apply array_get_Some in Hget as [_ Hn].
      pose proof (currentCount_insert _ _ _ (Some (markHit e)) Hn) as Hins.
      simpl in Hins. lia.
  - destruct (step_timer_game w now) as [Hg _].
    apply (capInv_weaken w); [done | done | by rewrite Hg].
  - destruct (step_paused_game w now paused) as (Hg & _ & _ & _).
    apply (capInv_weaken w); [done | done | by rewrite Hg].
Qed.

Lemma reachable_capInv (w : World) : reachable w -> capInv w.
Proof.
  induction 1 as [t0 Ht0 | w e Hw IH Ht]; [done |].
  apply capInv_step; auto. by apply reachable_timeInv.
Qed.

(** C4. In every reachable state the number of occupied slots whose entity
    is not hit is at most [maxConcurrent = 1 + floor(difficulty * 2)], with
    the difficulty [getDifficulty] computes from the remaining time on
    display, which lies between 0 and 1; and [spawnEntity] does nothing
    when that number has reached the cap. *)
Theorem concurrency_cap (w : World) (d : Draws) :
  reachable w ->
  let difficulty := getDifficulty (timeLeft (game w)) in
  let count := Z.of_nat (currentCount (grid (game w))) in
  (0 <= difficulty)%Q /\ (difficulty <= 1)%Q
  /\ count <= maxConcurrent difficulty
  /\ maxConcurrent difficulty <= 3
  /\ (maxConcurrent difficulty <= count -> spawnEntity (game w) d = []).
Proof.
  intros Hw difficulty count. subst difficulty count.
  assert (0 <= getDifficulty (timeLeft (game w)))%Q as H0.
  { unfold getDifficulty. apply Q.min_glb; [apply Q.le_max_r | done]. }
  assert (getDifficulty (timeLeft (game w)) <= 1)%Q as H1.
  { unfold getDifficulty. apply Q.le_min_r. }
  split; [done |]. split; [done |].
  split; [by apply reachable_capInv |].
  split.
  - assert (Qfloor (getDifficulty (timeLeft (game w)) * 2) <= Qfloor 2) as Hf.
    { apply Qfloor_resp_le. lra. }
    change (Qfloor 2) with 2 in Hf. unfold maxConcurrent. lia.
  - intros Hfull. unfold spawnEntity.
    by destruct (Z.leb_spec (maxConcurrent (getDifficulty (timeLeft (game w))))
                  (Z.of_nat (currentCount (grid (game w))))); [| lia].
Qed.

(** One unhit bomb at the start of the round: the cap is 1 and reached. *)
Lemma concurrency_cap_witness :
  let w := step (mount 1000) (Frame 1016 (bombDraws 0 "a" 1016)) in
  let d := bombDraws 0 "b" 2000 in
  currentCount (grid (game w)) = 1%nat
  /\ Z.of_nat (currentCount (grid (game w)))
     <= maxConcurrent (getDifficulty (timeLeft (game w)))
  /\ spawnEntity (game w) d = [].
Proof.
  intros w d.
  assert (reachable w) as Hw.
  { apply reach_step; [apply reach_mount; lia | simpl; lia]. }
  pose proof (concurrency_cap w d Hw) as (_ & _ & Hcap & _ & Hfull).
  split; [reflexivity |]. split; [exact Hcap |].
  apply Hfull. vm_compute. discriminate.
Defined.

(** ** The end of the round *)

Lemma run_reachable (es : list Event) (w : World) :
  reachable w -> inOrder (clock w) es = true -> reachable (run w es).
Proof.
  revert w. induction es as [| e es IH]; intros w Hw Ho; [done |].
  simpl in Ho. apply andb_true_iff in Ho as [Ht Ho]. apply Z.leb_le in Ht.
  rewrite run_cons. apply IH; [by apply reach_step |]. by rewrite step_clock.
Qed.

(** The hit that takes the last life sets one timeout, due 500 ms later,
    that carries the score on display at the hit. *)
Lemma last_life_sets_timeout (w : World) (now index : Z) (e : GameEntity) :
  mounted w = true ->
  array_get (grid (game w)) index = Some (Some e) ->
  isHit e = false ->
  type e = bomb ->
  lives (game w) = 1 ->
  timers (step w (Click now index)) = timers w ++ [(now + 500, score (game w))]
  /\ reports (step w (Click now index)) = reports w.
Proof.
  intros Hm Hget Hhit Hbomb Hlives. simpl. rewrite Hm.
  unfold handleWhack. rewrite Hget, Hhit, Hbomb.
  unfold commit. simpl. by rewrite Hlives.
Qed.

(** The frame on which the time is up reports the score on display, once. *)
Lemma time_up_reports_score (w : World) (now : Z) (d : Draws) :
  mounted w = true ->
  isPaused (game w) = false ->
  (remaining (startTime (refs w)) now <= 0)%Q ->
  reports (step w (Frame now d)) = reports w ++ [score (game w)]
  /\ mounted (step w (Frame now d)) = false.
Proof.
  intros Hm Hp Hle. simpl. rewrite Hm. unfold loop. rewrite Hp.
  apply le_true in Hle. by rewrite Hle.
Qed.

(** C1 (the code at the failing input). With one life left and two unhit
    bombs on the grid, hitting both within 50 ms sets two timeouts, and
    each of them calls [onGameOver] when it fires: the round is reported
    twice. *)
Theorem game_over_reported_twice :
  reachable (run (mount 1000) fourBombs)
  /\ lives (game (run (mount 1000) (take 6 fourBombs))) = 1
  /\ timers (run (mount 1000) (take 7 fourBombs)) = [(18250, 0)]
  /\ timers (run (mount 1000) (take 8 fourBombs)) = [(18250, 0); (18300, 0)]
  /\ reports (run (mount 1000) (take 9 fourBombs)) = [0]
  /\ reports (run (mount 1000) fourBombs) = [0; 0].
Proof.
  split; [apply run_reachable; [apply reach_mount; lia | reflexivity] |].
  repeat split; vm_compute; reflexivity.
Qed.

(** C2 (the code at the failing input). The same two hits take the lives
    from 1 to 0 and then to -1. *)
Theorem lives_go_negative :
  reachable (run (mount 1000) (take 8 fourBombs))
  /\ lives (game (run (mount 1000) (take 7 fourBombs))) = 0
  /\ lives (game (run (mount 1000) (take 8 fourBombs))) = -1.
Proof.
  split; [apply run_reachable; [apply reach_mount; lia | reflexivity] |].
  split; vm_compute; reflexivity.
Qed.

(** * Further properties of the round *)

(** ** Choosing a hole *)

Lemma emptyIndices_from (g : GridState) (off : nat) :
  let l := List.filter (fun i => negb (i =? -1))
             (imap (fun i e => match e with
                               | None => Z.of_nat (off + i)
                               | Some _ => -1
                               end) g) in
  StronglySorted Z.lt l /\ Forall (fun k => Z.of_nat off <= k) l.
Proof.
  revert off. induction g as [| slot g IH]; intros off; simpl.
  { split; constructor. }
  rewrite (imap_ext _ (fun i e => match e with
                                  | None => Z.of_nat (S off + i)
                                  | Some _ => -1
                                  end)).
  2:{ intros i [e |] _; simpl; [done | f_equal; lia]. }
  destruct (IH (S off)) as [Hs Hf].
  assert (Forall (fun k => Z.of_nat off <= k)
            (List.filter (fun i => negb (i =? -1))
               (imap (fun i e => match e with
                                 | None => Z.of_nat (S off + i)
                                 | Some _ => -1
                                 end) g))) as Hf'.
  { eapply Forall_impl; [exact Hf |]. simpl. intros; lia. }
  destruct slot as [e |]; simpl; [done |].
  destruct (Z.eqb_spec (Z.of_nat (off + 0)) (-1)) as [Heq | _]; [lia |]. simpl.
  split.
  - constructor; [done |]. eapply Forall_impl; [exact Hf |]. simpl. intros; lia.
  - constructor; [lia | done].
Qed.

Lemma emptyIndices_In (g : GridState) (k : Z) :
  In k (emptyIndices g) <-> array_get g k = Some None.
Proof.
  split.
  - intros (n & -> & Hn)%emptyIndices_spec.
    apply array_get_Some. rewrite Nat2Z.id. split; [lia | done].
  - intros [Hk Hn]%array_get_Some.
    unfold emptyIndices. rewrite filter_In, <- list_elem_of_In, elem_of_lookup_imap.
    split.
    + exists (Z.to_nat k), None. split; [lia | done].
    + destruct (Z.eqb_spec k (-1)); [lia | done].
Qed.

Lemma emptyIndices_sorted (g : GridState) : StronglySorted Z.lt (emptyIndices g).
Proof. exact (proj1 (emptyIndices_from g 0)). Qed.

(** X1. [emptyIndices] lists exactly the indices of the empty holes, each
    once and in increasing order. *)
Theorem emptyIndices_exact (g : GridState) :
  (forall k : Z, In k (emptyIndices g) <-> array_get g k = Some None)
  /\ StronglySorted Z.lt (emptyIndices g).
Proof. split; [apply emptyIndices_In | apply emptyIndices_sorted]. Qed.

(** ** What the events do to the page *)

Lemma step_frame_world (w : World) (now : Z) (d : Draws) :
  let w' := step w (Frame now d) in
  timers w' = timers w
  /\ ((reports w' = reports w /\ appState w' = appState w)
      \/ (mounted w = true /\ isPaused (game w) = false
          /\ (remaining (startTime (refs w)) now <= 0)%Q
          /\ reports w' = reports w ++ [score (game w)]
          /\ appState w' = handleGameOver (appState w) (score (game w)))).
Proof.
  simpl. destruct (mounted w) eqn:Hm; [| by split; [| left]].
  unfold loop. destruct (isPaused (game w)) eqn:Hp; [by split; [| left] |].
  destruct (le _ 0) eqn:Hle.
  { split; [done |]. right. repeat split; try done. by apply le_true. }
  destruct (gt _ _); [| by split; [| left]].
  destruct (spawnEntity_cases (game w) d) as [-> | [-> | (n & _ & _ & ->)]];
    by split; [| left].
Qed.

Lemma step_click_world (w : World) (now index : Z) :
  let w' := step w (Click now index) in
  appState w' = appState w
  /\ reports w' = reports w
  /\ (timers w' = timers w
      \/ lives (game w') <= 0
         /\ timers w' = timers w ++ [(now + 500, score (game w))]).
Proof.
  simpl. destruct (mounted w); [| by repeat split; left].
  unfold handleWhack.
  destruct (array_get (grid (game w)) index) as [[e |] |]; try (by repeat split; left).
  destruct (isHit e); [by repeat split; left |].
  destruct (type e); try (by repeat split; left).
  unfold commit. simpl.
  destruct (Z.leb_spec (lives (game w) - 1) 0); simpl; repeat split; auto.
Qed.

Lemma step_timer_world (w : World) (now : Z) :
  step w (TimerFire now) = idleUntil now w
  \/ exists due s rest,
       timers w = (due, s) :: rest
       /\ step w (TimerFire now)
          = mkWorld (handleGameOver (appState w) s) (game w) (refs w) rest
                    (reports w ++ [s]) now.
Proof.
  simpl. destruct (timers w) as [| [due s] rest]; [by left |].
  destruct (due <=? now); [| by left]. right. by exists due, s, rest.
Qed.

Lemma step_paused_world (w : World) (now : Z) (paused : bool) :
  let w' := step w (SetPaused now paused) in
  appState w' = appState w /\ reports w' = reports w /\ timers w' = timers w.
Proof. simpl. by destruct (mounted w && _). Qed.

(** No event gives points back or lives. *)
Lemma step_score_lives (w : World) (e : Event) :
  score (game w) <= score (game (step w e)) <= score (game w) + 3
  /\ lives (game w) - 1 <= lives (game (step w e)) <= lives (game w).
Proof.
  destruct e as [now d | now index | now | now paused].
  - destruct (step_frame_score_lives w now d) as [-> ->]. lia.
  - destruct (step_click_cases w now index) as [-> | (e & _ & _ & _ & -> & _)]; simpl;
      [lia |].
    destruct (type e); simpl; lia.
  - destruct (step_timer_game w now) as [-> _]. lia.
  - destruct (step_paused_game w now paused) as (_ & -> & -> & _). lia.
Qed.

(** Once [Game] is unmounted, nothing reaches its state. *)
Lemma step_unmounted (w : World) (e : Event) :
  mounted w = false ->
  game (step w e) = game w /\ refs (step w e) = refs w /\ mounted (step w e) = false.
Proof.
  intros Hm.
  destruct e as [now d | now index | now | now paused]; simpl; rewrite ?Hm; simpl;
    try done.
  destruct (timers w) as [| [due s] rest]; [done |]. by destruct (due <=? now).
Qed.

(** ** Score, lives and reports along a round *)

Lemma mounted_handleGameOver (w w' : World) (s : Z) :
  appState w' = handleGameOver (appState w) s -> mounted w' = false.
Proof. unfold mounted. by intros ->. Qed.

Lemma mounted_same (w w' : World) :
  appState w' = appState w -> mounted w' = mounted w.
Proof. unfold mounted. by intros ->. Qed.

Lemma roundInv_step (w : World) (e : Event) :
  roundInv w -> clock w <= eventTime e -> roundInv (step w e).
Proof.
  intros (Hscore & Hlives & Hrep & Htim & Hend & Hreps & Htims) Ht.
  pose proof (step_score_lives w e) as [[Hs1 Hs2] [Hl1 Hl2]].
  pose proof (step_clock w e) as Hclock.
  assert (reports w <> [] ->
          lives (game (step w e)) <= 0 \/ (timeLeft (game (step w e)) <= 0)%Q) as Hend'.
  { intros Hne.
    assert (game (step w e) = game w) as ->; [| by apply Hend].
    apply step_unmounted.
    destruct (mounted w) eqn:Hm; [| done]. by destruct Hne; apply Hrep. }
  assert (timers w <> [] -> lives (game (step w e)) <= 0) as Htim'.
  { intros Hne. specialize (Htim Hne). lia. }
  assert (Forall (fun r => 0 <= r <= score (game (step w e))) (reports w)) as Hreps'.
  { eapply Forall_impl; [exact Hreps |]. simpl. intros; lia. }
  assert (Forall (fun t => t.1 <= clock (step w e) + 500
                           /\ 0 <= t.2 <= score (game (step w e))) (timers w)) as Htims'.
  { eapply Forall_impl; [exact Htims |]. simpl. intros; lia. }
  unfold roundInv. split; [lia |]. split; [lia |].
  destruct e as [now d | now index | now | now paused]; cbn [eventTime] in *.
  - destruct (step_frame_world w now d) as [Htm [[Hr Ha] | (Hm & Hp & Hle & Hr & Ha)]];
      rewrite Htm, Hr.
    + rewrite (mounted_same _ _ Ha). split_and!; done.
    + rewrite (mounted_handleGameOver _ _ _ Ha), (Hrep Hm) in *.
      split_and!; [done | done | | | done].
      * intros _. right.
        destruct (step_frame w now d)
          as [w' [Hi | Hi] _ _ | w' _ _ _ -> _ | w' G _ _ Hlt _ _ _ _]; try congruence.
        -- done.
        -- exfalso. by apply (Qlt_not_le _ _ Hlt).
      * constructor; [cbn beta; lia | constructor].
  - destruct (step_click_world w now index) as (Ha & Hr & [Htm | [Hl0 Htm]]);
      rewrite Htm, Hr, (mounted_same _ _ Ha).
    + split_and!; done.
    + split_and!; [done | done | done | done |].
      apply Forall_app. split; [done |].
      constructor; [cbn beta; cbn [fst snd]; lia | constructor].
  - destruct (step_timer_world w now) as [Heq | (due & s & rest & Htm & Heq)];
      rewrite Heq in *; simpl in *.
    + split_and!; done.
    + rewrite Htm in *. apply Forall_cons in Htims' as [[_ Hs] Hrest].
      assert (lives (game w) <= 0) by (by apply Htim).
      split_and!; [done | done | by left | | done].
      apply Forall_app. split; [done |]. constructor; [simpl in *; lia | constructor].
  - destruct (step_paused_world w now paused) as (Ha & Hr & Htm).
    rewrite Htm, Hr, (mounted_same _ _ Ha). split_and!; done.
Qed.

Lemma reachable_roundInv (w : World) : reachable w -> roundInv w.
Proof.
  induction 1 as [t0 Ht0 | w e Hw IH Ht]; [| by apply roundInv_step].
  repeat split; simpl; try done; constructor.
Qed.

(** X4. In every reachable state the score is not negative and the lives
    are at most 3; and no event whatever takes points away or gives a life
    back: an event adds at most 3 points and costs at most one life. *)
Theorem score_and_lives_one_way (w : World) (e : Event) :
  reachable w ->
  0 <= score (game w)
  /\ lives (game w) <= 3
  /\ score (game w) <= score (game (step w e)) <= score (game w) + 3
  /\ lives (game w) - 1 <= lives (game (step w e)) <= lives (game w).
Proof.
  intros Hw. destruct (reachable_roundInv w Hw) as (Hs & Hl & _).
  pose proof (step_score_lives w e). tauto.
Qed.

Lemma score_and_lives_one_way_witness :
  let w := run (mount 1000) (take 7 fourBombs) in
  lives (game w) = 0
  /\ score (game w) <= score (game (step w (Click 17800 2)))
  /\ lives (game (step w (Click 17800 2))) <= lives (game w).
Proof.
  intros w.
  assert (reachable w) as Hw.
  { apply run_reachable; [apply reach_mount; lia | vm_compute; reflexivity]. }
  pose proof (score_and_lives_one_way w (Click 17800 2) Hw) as (_ & _ & Hs & Hl).
  split; [vm_compute; reflexivity |]. split; [apply Hs | apply Hl].
Defined.

(** X5. Within a round that started with no timeout of an earlier round
    pending, [onGameOver] is never called while the player has both lives
    and time: in every state reachable from the mount, a report implies
    that the lives are at most 0 or the remaining time is 0, and a
    game-over timeout is pending only when the lives are at most 0. *)
Theorem reports_only_when_round_is_over (w : World) :
  reachable w ->
  (reports w <> [] -> lives (game w) <= 0 \/ (timeLeft (game w) <= 0)%Q)
  /\ (0 < lives (game w) -> timers w = []).
Proof.
  intros Hw. destruct (reachable_roundInv w Hw) as (_ & _ & _ & Htim & Hend & _).
  split; [done |].
  intros Hl. destruct (timers w) as [| t ts] eqn:Ht; [done |].
  assert (lives (game w) <= 0) by (by apply Htim). lia.
Qed.

Lemma reports_only_when_round_is_over_witness :
  let w := run (mount 1000) (take 9 fourBombs) in
  reports w = [0] /\ lives (game w) <= 0.
Proof.
  intros w.
  assert (reachable w) as Hw.
  { apply run_reachable; [apply reach_mount; lia | vm_compute; reflexivity]. }
  pose proof (reports_only_when_round_is_over w Hw) as (Hend & _).
  assert (reports w = [0]) as Hr by (vm_compute; reflexivity).
  split; [exact Hr |].
  destruct Hend as [Hl | Ht]; [by rewrite Hr | exact Hl |].
  exfalso. revert Ht. vm_compute. intros Ht. apply Ht. reflexivity.
Defined.

(** X6. Every score that was reported, and every score a pending timeout
    will report, lies between 0 and the score on display; a pending timeout
    is due no later than 500 ms after the latest event. *)
Theorem reported_score_bounded (w : World) :
  reachable w ->
  Forall (fun r => 0 <= r <= score (game w)) (reports w)
  /\ Forall (fun t => t.1 <= clock w + 500 /\ 0 <= t.2 <= score (game w)) (timers w).
Proof.
  intros Hw. by destruct (reachable_roundInv w Hw) as (_ & _ & _ & _ & _ & Hr & Ht).
Qed.

Lemma reported_score_bounded_witness :
  let w := run (mount 1000) (take 8 fourBombs) in
  timers w = [(18250, 0); (18300, 0)]
  /\ Forall (fun t => t.1 <= clock w + 500 /\ 0 <= t.2 <= score (game w)) (timers w).
Proof.
  intros w.
  assert (reachable w) as Hw.
  { apply run_reachable; [apply reach_mount; lia | vm_compute; reflexivity]. }
  split; [vm_compute; reflexivity |]. exact (proj2 (reported_score_bounded w Hw)).
Defined.

(** X7. A game-over timeout is never cancelled: whatever the event, and
    whatever the status of the page, the timeouts that were pending are
    still pending afterwards, in the same order and followed by the new
    ones, except that the oldest one may have come due and fired; it then
    has reported its score. *)
Theorem timeouts_are_never_cancelled (w : World) (e : Event) :
  (exists new, timers (step w e) = timers w ++ new)
  \/ (exists due s,
        timers w = (due, s) :: timers (step w e)
        /\ due <= eventTime e
        /\ reports (step w e) = reports w ++ [s]).
Proof.
  destruct e as [now d | now index | now | now paused].
  - left. exists []. rewrite app_nil_r. apply step_frame_world.
  - left. destruct (step_click_world w now index) as (_ & _ & [-> | [_ ->]]).
    + exists []. by rewrite app_nil_r.
    + by eexists.
  - simpl. destruct (timers w) as [| [due s] rest] eqn:Htm.
    { left. by exists []. }
    destruct (Z.leb_spec due now).
    + right. by exists due, s.
    + left. exists []. by rewrite app_nil_r.
  - left. exists []. rewrite app_nil_r. apply step_paused_world.
Qed.

(** ** The clock of the round *)

Lemma remaining_nonneg (start now : Z) : (0 <= remaining start now)%Q.
Proof. unfold remaining. apply Q.le_max_r. Qed.

Lemma remaining_up_iff (start now : Z) :
  (remaining start now <= 0)%Q <-> start + 30000 <= now.
Proof.
  unfold remaining, GAME_DURATION. rewrite Q.max_lub_iff.
  assert ((30000 <= inject_Z (now - start))%Q <-> start + 30000 <= now) as <-.
  { change 30000%Q with (inject_Z 30000). rewrite <- Zle_Qle. lia. }
  set (x := inject_Z (now - start)).
  assert (x / 1000 * 1000 == x)%Q as Hx by (field; discriminate).
  split.
  - intros [H _]. lra.
  - intros H. split; [lra | apply Qle_refl].
Qed.

(** X8. The remaining time on display stays between 0 and the 30 seconds
    of the round in every reachable state. *)
Theorem timeLeft_in_range (w : World) :
  reachable w ->
  (0 <= timeLeft (game w))%Q /\ (timeLeft (game w) <= GAME_DURATION)%Q.
Proof.
  induction 1 as [t0 _ | w e Hw [IH0 IH30] Ht]; [done |].
  split.
  - destruct e as [now d | now index | now | now paused].
    + destruct (step_frame w now d)
        as [w' _ -> _ | w' _ _ _ -> _ | w' G _ _ _ _ -> _ _]; simpl;
        [done | apply remaining_nonneg ..].
    + by destruct (step_click_cases w now index) as [-> | (e & _ & _ & _ & -> & _)].
    + by destruct (step_timer_game w now) as [-> _].
    + by destruct (step_paused_game w now paused) as (_ & _ & _ & ->).
  - eapply Qle_trans; [| exact IH30].
    apply timeLeft_step_le; [by apply reachable_timeInv | done].
Qed.

Lemma timeLeft_in_range_witness :
  let w := run (mount 1000) (take 6 fourBombs) in
  (0 <= timeLeft (game w))%Q /\ (timeLeft (game w) <= GAME_DURATION)%Q.
Proof.
  intros w. apply timeLeft_in_range.
  apply run_reachable; [apply reach_mount; lia | vm_compute; reflexivity].
Defined.

(** X9. A round lasts 30 seconds of unpaused time: while the status is
    [PLAYING] and the game is not paused, a frame that comes 30000 ms or
    more after [startTime] sets the remaining time to 0, calls
    [onGameOver] with the score on display and leaves the grid as it is; a
    frame that comes earlier calls nothing and leaves time on display. *)
Theorem round_lasts_thirty_seconds (w : World) (now : Z) (d : Draws) :
  status (appState w) = PLAYING ->
  isPaused (game w) = false ->
  let w' := step w (Frame now d) in
  (startTime (refs w) + 30000 <= now ->
   (timeLeft (game w') == 0)%Q
   /\ reports w' = reports w ++ [score (game w)]
   /\ grid (game w') = grid (game w))
  /\ (now < startTime (refs w) + 30000 ->
      (0 < timeLeft (game w'))%Q /\ reports w' = reports w).
Proof.
  intros Hst Hp w'. subst w'.
  assert (mounted w = true) as Hm by (unfold mounted; by rewrite Hst).
  split.
  - intros Hup%remaining_up_iff.
    destruct (time_up_reports_score w now d Hm Hp Hup) as [Hr _].
    destruct (step_frame w now d)
      as [w' [Hi | Hi] _ _ | w' _ _ _ Hg _ | w' G _ _ Hlt _ _ _ _]; try congruence.
    + rewrite Hg. simpl. split_and!; [| done | done].
      apply Qle_antisym; [done | apply remaining_nonneg].
    + exfalso. by apply (Qlt_not_le _ _ Hlt).
  - intros Hlt.
    assert (0 < remaining (startTime (refs w)) now)%Q as Hrem.
    { apply Qnot_le_lt. intros Hle%remaining_up_iff. lia. }
    destruct (step_frame_world w now d) as [_ [[Hr _] | (_ & _ & Hle & _)]].
    2:{ exfalso. by apply (Qlt_not_le _ _ Hrem). }
    split; [| done].
    destruct (step_frame w now d)
      as [w' [Hi | Hi] _ _ | w' _ _ Hle _ _ | w' G _ _ _ _ Hg _ _]; try congruence.
    + exfalso. by apply (Qlt_not_le _ _ Hrem).
    + by rewrite Hg.
Qed.

Lemma round_lasts_thirty_seconds_witness :
  let w := mount 1000 in
  reports (step w (Frame 30999 (bombDraws 0 "a" 30999))) = []
  /\ reports (step w (Frame 31000 (bombDraws 0 "a" 31000))) = [0]
  /\ (timeLeft (game (step w (Frame 31000 (bombDraws 0 "a" 31000)))) == 0)%Q.
Proof.
  intros w.
  pose proof (round_lasts_thirty_seconds w 30999 (bombDraws 0 "a" 30999) eq_refl eq_refl)
    as [_ Hearly].
  pose proof (round_lasts_thirty_seconds w 31000 (bombDraws 0 "a" 31000) eq_refl eq_refl)
    as [Hlate _].
  split; [apply Hearly; simpl; lia |].
  split; apply Hlate; simpl; lia.
Defined.

(** ** Lifetimes *)

Lemma newEntity_duration (difficulty : Q) (d : Draws) :
  (0 <= difficulty)%Q -> (difficulty <= 1)%Q ->
  (MOLE_DURATION_END <= duration (newEntity difficulty d))%Q
  /\ (duration (newEntity difficulty d) <= MOLE_DURATION_START)%Q.
Proof.
  intros H0 H1. simpl. unfold MOLE_DURATION_START, MOLE_DURATION_END. split; lra.
Qed.

Lemma getDifficulty_range (t : Q) :
  (0 <= getDifficulty t)%Q /\ (getDifficulty t <= 1)%Q.
Proof.
  unfold getDifficulty. split; [apply Q.min_glb; [apply Q.le_max_r | done] |].
  apply Q.le_min_r.
Qed.

(** X12. Every entity on the grid of a reachable state lives between 700
    and 1500 ms: its [duration] lies between [MOLE_DURATION_END] and
    [MOLE_DURATION_START]. *)
Theorem entity_duration_in_range (w : World) (n : nat) (e : GameEntity) :
  reachable w ->
  grid (game w) !! n = Some (Some e) ->
  (MOLE_DURATION_END <= duration e)%Q /\ (duration e <= MOLE_DURATION_START)%Q.
Proof.
  intros Hw. revert n e.
  induction Hw as [t0 _ | w ev Hw IH Ht]; intros n e Hn.
  { change (grid (game (mount t0))) with (replicate GRID_SIZE (@None GameEntity)) in Hn.
    by apply lookup_replicate in Hn as [? _]. }
  assert (forall m x, (despawn (eventTime ev) <$> grid (game w)) !! m = Some (Some x) ->
                      grid (game w) !! m = Some (Some x)) as Hsweep.
  { intros m x. rewrite list_lookup_fmap.
    destruct (grid (game w) !! m) as [[y |] |]; simpl; try done.
    destruct (isHit y && _); [done |]. by destruct (negb (isHit y) && _). }
  destruct ev as [now d | now index | now | now paused]; cbn [eventTime] in *.
  - destruct (step_frame w now d)
      as [w' _ Hg _ | w' _ _ _ Hg _ | w' G _ _ _ HG Hg _ _]; rewrite Hg in Hn;
      simpl in Hn; [by eapply IH .. |].
    destruct HG as [-> | (m & Hm & _ & ->)]; [by eapply IH, Hsweep |].
    destruct (decide (m = n)) as [-> | Hne].
    + rewrite list_lookup_insert_eq in Hn
        by (rewrite length_fmap; by eapply lookup_lt_Some).
      injection Hn as <-.
      by apply newEntity_duration; apply getDifficulty_range.
    + rewrite list_lookup_insert_ne in Hn by done. by eapply IH, Hsweep.
  - destruct (step_click_cases w now index) as [Heq | (x & _ & Hget & _ & Hg & _)].
    + rewrite Heq in Hn. by eapply IH.
    + rewrite Hg in Hn. simpl in Hn.
      apply array_get_Some in Hget as [_ Hx].
      destruct (decide (Z.to_nat index = n)) as [<- | Hne].
      * rewrite list_lookup_insert_eq in Hn by (by eapply lookup_lt_Some).
        injection Hn as <-. simpl. by eapply IH.
      * rewrite list_lookup_insert_ne in Hn by done. by eapply IH.
  - destruct (step_timer_game w now) as [Hg _]. rewrite Hg in Hn. by eapply IH.
  - destruct (step_paused_game w now paused) as (Hg & _). rewrite Hg in Hn. by eapply IH.
Qed.

Lemma entity_duration_in_range_witness :
  let w := run (mount 1000) (take 5 fourBombs) in
  let e := newEntity (getDifficulty (timeLeft (game (run (mount 1000) (take 4 fourBombs)))))
                     (bombDraws 0 "c" 17000) in
  grid (game w) !! 0%nat = Some (Some e)
  /\ (MOLE_DURATION_END <= duration e)%Q /\ (duration e <= MOLE_DURATION_START)%Q.
Proof.
  intros w e.
  assert (reachable w) as Hw.
  { apply run_reachable; [apply reach_mount; lia | vm_compute; reflexivity]. }
  assert (grid (game w) !! 0%nat = Some (Some e)) as Hn by (vm_compute; reflexivity).
  split; [exact Hn |]. exact (entity_duration_in_range w 0 e Hw Hn).
Defined.

(** ** The game-over screen *)

(** X15. [handleGameOver] compares the score with the high score of the
    render that created it but overwrites the current one.  Run from the
    current render it is the function above and never lowers the high
    score; run from an older render whose high score is below the reported
    score, it lowers a current high score that is above that score. *)
Theorem stale_game_over_overwrites_high_score (rendered prev : AppState) (finalScore : Z) :
  handleGameOverOf prev prev finalScore = handleGameOver prev finalScore
  /\ highScore prev <= highScore (handleGameOverOf prev prev finalScore)
  /\ (highScore (handleGameOverOf rendered prev finalScore) < highScore prev
      <-> highScore rendered < finalScore /\ finalScore < highScore prev).
Proof.
  unfold handleGameOverOf, handleGameOver. simpl.
  split_and!; [done | |].
  - destruct (Z.ltb_spec (highScore prev) finalScore); lia.
  - destruct (Z.ltb_spec (highScore rendered) finalScore); lia.
Qed.

(** A report of 5 from a render that knew the high score 2 arrives when the
    high score is 9: the high score drops to 5. *)
Lemma stale_game_over_overwrites_high_score_witness :
  highScore (handleGameOverOf (mkApp PLAYING 0 2) (mkApp GAME_OVER 9 9) 5) = 5
  /\ highScore (handleGameOverOf (mkApp PLAYING 0 2) (mkApp GAME_OVER 9 9) 5) < 9.
Proof.
  split; [reflexivity |].
  apply (stale_game_over_overwrites_high_score (mkApp PLAYING 0 2) (mkApp GAME_OVER 9 9) 5).
  simpl. lia.
Defined.

(** ** The kiosk idle reset *)

Lemma kioskStep_timeout (k : Kiosk) (e : KioskEvent) :
  (is_Some (idleTimeout k) -> status (page k) = GAME_OVER) ->
  is_Some (idleTimeout (kioskStep k e)) -> status (page (kioskStep k e)) = GAME_OVER.
Proof.
  intros Hinv.
  destruct k as [[st ls hs] tm]; destruct e as [now | now | s | now];
    destruct st, tm as [due |]; simpl in *;
    unfold resetIdleTimer, renderPage, idleTimeoutFires; simpl;
    try (destruct (due <=? now)); simpl;
    intros Hs; first [done | by destruct Hs as [? [=]] | by apply Hinv].
Qed.

Lemma kiosk_foldl_timeout (es : list KioskEvent) (k : Kiosk) :
  (is_Some (idleTimeout k) -> status (page k) = GAME_OVER) ->
  is_Some (idleTimeout (foldl kioskStep k es)) ->
  status (page (foldl kioskStep k es)) = GAME_OVER.
Proof.
  revert k. induction es as [| e es IH]; intros k Hinv; [done |].
  simpl. apply IH. by apply kioskStep_timeout.
Qed.

(** X16. The idle timeout is pending on the game-over screen only: after
    any events from the start screen, a pending timeout implies the status
    [GAME_OVER]; so on the start screen and during a round the passing of
    time changes nothing, and the timeout never cuts a round short. *)
Theorem idle_timeout_only_on_game_over (es : list KioskEvent) (now : Z) :
  let k := kioskRun es in
  (is_Some (idleTimeout k) -> status (page k) = GAME_OVER)
  /\ (status (page k) <> GAME_OVER -> kioskStep k (Wait now) = k).
Proof.
  intros k.
  assert (is_Some (idleTimeout k) -> status (page k) = GAME_OVER) as Hinv.
  { subst k. unfold kioskRun. apply kiosk_foldl_timeout. by intros [? [=]]. }
  clearbody k. split; [done |].
  intros Hne. unfold kioskStep. destruct (idleTimeout k) as [due |] eqn:Hd; [| done].
  destruct Hne. apply Hinv. rewrite ?Hd. by eexists.
Qed.

(** X17. The countdown to the start screen does not begin by itself: when
    the page is rendered with status [GAME_OVER] after another status, no
    timeout is pending, and however long the kiosk waits without a touch
    it stays there. *)
Theorem idle_reset_needs_a_touch (k : Kiosk) (a : AppState) (waits : list Z) :
  status (page k) <> GAME_OVER ->
  status a = GAME_OVER ->
  let k1 := renderPage k a in
  k1 = mkKiosk a None
  /\ foldl kioskStep k1 (Wait <$> waits) = k1.
Proof.
  intros Hk Ha k1.
  assert (k1 = mkKiosk a None) as ->.
  { subst k1. unfold renderPage. rewrite Ha. by destruct (status (page k)). }
  split; [done |].
  induction waits as [| t waits IH]; [done | exact IH].
Qed.

Lemma idle_reset_needs_a_touch_witness :
  let k := kioskRun [PressStart 1000] in
  let a := (handleGameOverWithSound audible (page k) (page k)
              (mkSound false playingEngine) 7).1 in
  status (page k) = PLAYING
  /\ a = mkApp GAME_OVER 7 7
  /\ foldl kioskStep (renderPage k a) (Wait <$> [50000; 500000]) = mkKiosk a None.
Proof.
  intros k a.
  destruct (idle_reset_needs_a_touch k a [50000; 500000]) as [H1 H2];
    [discriminate | reflexivity |].
  split; [reflexivity |]. split; [reflexivity |].
  rewrite H2. exact H1.
Defined.

(** X18. On the game-over screen a touch at [t] starts the countdown: the
    timeout is due at [t + 10000]; before that waiting changes nothing, from
    then on it brings the start screen back, keeping last and high score;
    and a further touch at [t'] discards the pending timeout for one due at
    [t' + 10000]. *)
Theorem idle_reset_countdown (k : Kiosk) (t t' now : Z) :
  status (page k) = GAME_OVER ->
  let k2 := kioskStep k (Tap t) in
  idleTimeout k2 = Some (t + 10000)
  /\ (now < t + 10000 -> kioskStep k2 (Wait now) = k2)
  /\ (t + 10000 <= now ->
      kioskStep k2 (Wait now)
      = mkKiosk (mkApp IDLE (lastScore (page k)) (highScore (page k))) None)
  /\ idleTimeout (kioskStep k2 (Tap t')) = Some (t' + 10000).
Proof.
  intros Hst k2.
  assert (k2 = mkKiosk (page k) (Some (t + 10000))) as ->.
  { subst k2. simpl. unfold resetIdleTimer. by rewrite Hst. }
  simpl. unfold resetIdleTimer, idleTimeoutFires, renderPage. simpl. rewrite Hst. simpl.
  split_and!; [done | | | done].
  - intros Hlt. by destruct (Z.leb_spec (t + 10000) now); [lia |].
  - intros Hle. by destruct (Z.leb_spec (t + 10000) now); [| lia].
Qed.

Lemma idle_reset_countdown_witness :
  let k := kioskRun [PressStart 1000; RoundOver 7] in
  kioskStep (kioskStep k (Tap 40000)) (Wait 49999) = kioskStep k (Tap 40000)
  /\ kioskStep (kioskStep k (Tap 40000)) (Wait 50000) = mkKiosk (mkApp IDLE 7 7) None.
Proof.
  intros k.
  pose proof (idle_reset_countdown k 40000 0 49999 eq_refl) as (_ & Hbefore & _).
  pose proof (idle_reset_countdown k 40000 0 50000 eq_refl) as (_ & _ & Hafter & _).
  split; [apply Hbefore; lia | apply Hafter; lia].
Defined.

(** X19. A press on a start button, from the start or the game-over
    screen.  When [startGame] completes, the status is [PLAYING] with no
    timeout pending, whether the window listener of the same click runs
    before or after the re-render.  When its sound call throws, the page
    stays as it is and the click counts as a touch: on the game-over screen
    the countdown starts again from the click. *)
Theorem start_cancels_countdown (env : AudioEnv) (s : Sound) (listenerFirst : bool)
    (k : Kiosk) (now : Z) :
  status (page k) <> PLAYING ->
  let k' := pressStart env s listenerFirst k now in
  match startGameWithSound env (page k) s with
  | Normal _ => k' = mkKiosk (mkApp PLAYING (lastScore (page k)) (highScore (page k))) None
  | Throw _ =>
      page k' = page k
      /\ idleTimeout k'
         = match status (page k) with
           | GAME_OVER => Some (now + IDLE_RESET_MS)
           | _ => None
           end
  end.
Proof.
  intros Hst k'. subst k'. unfold pressStart, startGameWithSound.
  destruct (playWhack env (engine s)) as [[eng calls] | msg].
  - destruct k as [[st ls hs] tm]. simpl in *.
    destruct listenerFirst, st; try done; destruct tm; done.
  - unfold resetIdleTimer. by destruct (status (page k)).
Qed.

Lemma start_cancels_countdown_witness :
  let k := kioskRun [PressStart 1000; RoundOver 7; Tap 40000] in
  idleTimeout k = Some 50000
  /\ pressStart audible (mkSound false playingEngine) false k 41000
     = mkKiosk (mkApp PLAYING 7 7) None
  /\ pressStart audible (mkSound false playingEngine) true k 41000
     = mkKiosk (mkApp PLAYING 7 7) None
  /\ idleTimeout (pressStart silent (mkSound false soundEngine) false k 41000) = Some 51000.
Proof.
  intros k.
  assert (status (page k) <> PLAYING) as Hst by discriminate.
  pose proof (start_cancels_countdown audible (mkSound false playingEngine) false k 41000 Hst)
    as H1.
  pose proof (start_cancels_countdown audible (mkSound false playingEngine) true k 41000 Hst)
    as H2.
  pose proof (start_cancels_countdown silent (mkSound false soundEngine) false k 41000 Hst)
    as H3.
  split; [reflexivity |]. split; [exact H1 |]. split; [exact H2 | exact (proj2 H3)].
Defined.

(** ** Sound *)

Lemma play_cases (t : Tone) (env : AudioEnv) (s : SoundEngine) :
  let resumed := match contextState env with suspended => [resume] | _ => [] end in
  play t env s
  = if negb (enabled s) then Normal (s, [])
    else if ctx s then Normal (s, resumed ++ [startTone t])
    else if available env
         then Normal (mkEngine true (enabled s),
                      newAudioContext :: resumed ++ [startTone t])
         else Throw "undefined is not a constructor".
Proof.
  unfold play, init. destruct s as [[|] [|]]; simpl; try done.
  by destruct (available env).
Qed.

Lemma countNew_app (xs ys : list AudioCall) :
  countNew (xs ++ ys) = (countNew xs + countNew ys)%nat.
Proof. unfold countNew. by rewrite List.filter_app, length_app. Qed.

Lemma soundStep_inv (s : Sound) (a : SoundAction) :
  enabled (engine s) = negb (isMuted s) ->
  let '(s', calls) := soundStep s a in
  enabled (engine s') = negb (isMuted s')
  /\ (countNew calls + (if ctx (engine s) then 1 else 0)
      = if ctx (engine s') then 1 else 0)%nat.
Proof.
  intros Hinv. destruct a as [| c env]; simpl.
  { split; [done | lia]. }
  rewrite play_cases. cbv zeta.
  destruct (enabled (engine s)) eqn:He; simpl; [| split; [by rewrite He | lia]].
  destruct (ctx (engine s)) eqn:Hc; simpl.
  - split; [by rewrite He |]. rewrite Hc, countNew_app.
    by destruct (contextState env).
  - destruct (available env); simpl; [| split; [by rewrite He | by rewrite Hc]].
    split; [done |]. unfold countNew. simpl. rewrite List.filter_app, length_app.
    by destruct (contextState env).
Qed.

Lemma soundRun_inv (acts : list SoundAction) (s : Sound) :
  enabled (engine s) = negb (isMuted s) ->
  let '(s', calls) := soundRun s acts in
  enabled (engine s') = negb (isMuted s')
  /\ (countNew calls + (if ctx (engine s) then 1 else 0)
      = if ctx (engine s') then 1 else 0)%nat.
Proof.
  revert s. induction acts as [| a acts IH]; intros s Hinv; simpl.
  { split; [done | unfold countNew; simpl; lia]. }
  pose proof (soundStep_inv s a Hinv) as H1.
  destruct (soundStep s a) as [s1 c1]. destruct H1 as [Hinv1 Hc1].
  pose proof (IH s1 Hinv1) as H2.
  destruct (soundRun s1 acts) as [s2 c2]. destruct H2 as [Hinv2 Hc2].
  split; [done |]. rewrite countNew_app. lia.
Qed.

(** X20. The mute button decides whether a cue sounds: after any presses
    of the button and any cues, the engine is enabled exactly when the page
    is not muted; a cue asked for while muted makes no audio call at all
    and leaves the engine as it is; asked for while not muted, with a
    context at hand or a constructor to make one, it starts exactly its
    tone, after creating or resuming the context at most. *)
Theorem mute_decides_sound (acts : list SoundAction) (c : Cue) (env : AudioEnv) :
  let s := (soundRun soundStart acts).1 in
  enabled (engine s) = negb (isMuted s)
  /\ (isMuted s = true -> soundStep s (playCue c env) = (s, []))
  /\ (isMuted s = false ->
      ctx (engine s) = true \/ available env = true ->
      exists pre,
        (soundStep s (playCue c env)).2 = pre ++ [startTone (toneOf c)]
        /\ Forall (fun x => x = newAudioContext \/ x = resume) pre).
Proof.
  intros s.
  assert (enabled (engine s) = negb (isMuted s)) as Hinv.
  { subst s. pose proof (soundRun_inv acts soundStart eq_refl) as H.
    destruct (soundRun soundStart acts) as [s' calls]. by destruct H. }
  clearbody s. split; [done |].
  simpl. rewrite play_cases. cbv zeta. rewrite Hinv.
  split.
  - intros Hm. rewrite Hm. simpl. destruct s as [m e]. simpl in Hm. by subst m.
  - intros -> Hctx. simpl.
    destruct (ctx (engine s)) eqn:Hc; simpl.
    + eexists. split; [done |]. destruct (contextState env); repeat (constructor; [by auto |]); constructor.
    + destruct Hctx as [? | ->]; [done |]. simpl.
      exists (newAudioContext :: match contextState env with
                                 | suspended => [resume]
                                 | _ => []
                                 end).
      split; [done |]. destruct (contextState env); repeat (constructor; [by auto |]); constructor.
Qed.

(** X21. The audio context is created lazily and once: over any presses of
    the mute button and any cues since the page was loaded, at most one
    context is created, and the engine holds a context exactly when one was
    created. *)
Theorem audio_context_created_once (acts : list SoundAction) :
  let r := soundRun soundStart acts in
  (countNew r.2 <= 1)%nat
  /\ (ctx (engine r.1) = true <-> countNew r.2 = 1%nat).
Proof.
  intros r. subst r.
  pose proof (soundRun_inv acts soundStart eq_refl) as H.
  destruct (soundRun soundStart acts) as [s calls]. destruct H as [_ Hc]. simpl in *.
  destruct (ctx (engine s)); split; try split; try lia; try done.
Qed.

(** X22. Each of the four tones stops exactly when its gain ramp ends and
    not before its frequency ramp has ended, fades to at most 0.01, and
    hands only positive values to an exponential ramp (which rejects 0). *)
Theorem tones_well_formed (c : Cue) :
  let t := toneOf c in
  stopAfter t = gainRampEnd t
  /\ (freqRampEnd t <= stopAfter t)%Q
  /\ (0 < stopAfter t)%Q
  /\ (gainTo t <= 0.01)%Q
  /\ (freqRamp t = exponentialRamp -> (0 < freqFrom t)%Q /\ (0 < freqTo t)%Q)
  /\ (gainRamp t = exponentialRamp -> (0 < gainFrom t)%Q /\ (0 < gainTo t)%Q).
Proof. destruct c; simpl; split_and!; by intros. Qed.

(** X24. [startGame] plays a sound before it sets the status, so the round
    starts unless that call throws: it throws exactly when sound is
    enabled, no audio context exists yet and the browser offers no
    constructor for one; otherwise the status becomes [PLAYING] and the
    mute flag is kept. *)
Theorem start_needs_audio_or_mute (env : AudioEnv) (a : AppState) (s : Sound) :
  ((exists msg, startGameWithSound env a s = Throw msg)
   <-> enabled (engine s) = true /\ ctx (engine s) = false /\ available env = false)
  /\ (forall a' s' calls,
        startGameWithSound env a s = Normal (a', s', calls) ->
        status a' = PLAYING /\ isMuted s' = isMuted s
        /\ lastScore a' = lastScore a /\ highScore a' = highScore a).
Proof.
  unfold startGameWithSound, playWhack. rewrite play_cases. cbv zeta.
  destruct (enabled (engine s)), (ctx (engine s)), (available env); simpl;
    (split; [split; [intros [msg H]; by inversion H | intros (? & ? & ?); try done; by eexists]
            | intros a' s' calls H; by inversion H]).
Qed.

(** X14. [handleGameOver] with its sound.  Whether or not [playGameOver]
    returns, the last score becomes the reported score and the high score
    is set as X15 says; the status becomes [GAME_OVER] only when the sound
    call returns, and it throws exactly when the sound is on, no audio
    context exists and the browser offers no constructor: the page then
    keeps its status.  Run from the current render, the handler leaves the
    larger of the old high score and the reported score, and the condition
    under which the game-over screen shows "New High Score!" holds exactly
    when the reported score is positive and at least the old high score,
    so also when it only equals it. *)
Theorem game_over_screen (env : AudioEnv) (rendered prev : AppState) (s : Sound)
    (finalScore : Z) :
  let r := handleGameOverWithSound env rendered prev s finalScore in
  lastScore r.1 = finalScore
  /\ highScore r.1 = highScore (handleGameOverOf rendered prev finalScore)
  /\ ((exists msg, r.2 = Throw msg)
      <-> enabled (engine s) = true /\ ctx (engine s) = false /\ available env = false)
  /\ status r.1 = (match r.2 with Normal _ => GAME_OVER | Throw _ => status prev end)
  /\ (rendered = prev ->
      highScore r.1 = Z.max (highScore prev) finalScore
      /\ (showsNewHighScore r.1 = true <-> highScore prev <= finalScore /\ 0 < finalScore)).
Proof.
  unfold handleGameOverWithSound, playGameOver, showsNewHighScore.
  rewrite play_cases. cbv zeta.
  destruct (enabled (engine s)), (ctx (engine s)), (available env); simpl;
    (split_and!; [done | done
       | split; [intros [msg H]; by inversion H | intros (? & ? & ?); try done; by eexists]
       | done
       | intros ->; destruct (Z.ltb_spec (highScore prev) finalScore);
         (split; [lia |]); rewrite andb_true_iff, Z.leb_le, Z.ltb_lt; lia]).
Qed.

(** A round that ends with 7 points: with the sound working the game-over
    screen appears with the banner; in a browser without [AudioContext]
    (the round was started muted and the sound switched on during it) the
    scores are set but the status stays [PLAYING]. *)
Lemma game_over_screen_witness :
  let a := mkApp PLAYING 0 0 in
  (handleGameOverWithSound audible a a (mkSound false playingEngine) 7).1 = mkApp GAME_OVER 7 7
  /\ showsNewHighScore (handleGameOverWithSound audible a a (mkSound false playingEngine) 7).1
     = true
  /\ (handleGameOverWithSound silent a a (mkSound false soundEngine) 7).1 = mkApp PLAYING 7 7.
Proof.
  intros a.
  pose proof (game_over_screen audible a a (mkSound false playingEngine) 7)
    as (_ & _ & _ & _ & H).
  destruct (H eq_refl) as [_ Hb].
  split; [reflexivity |]. split; [apply Hb; simpl; lia | reflexivity].
Defined.

(** ** How often entities appear *)

Lemma currentSpawnInterval_min (newTimeLeft : Q) :
  (0 <= newTimeLeft)%Q -> (SPAWN_INTERVAL_END <= currentSpawnInterval newTimeLeft)%Q.
Proof.
  intros H0. unfold currentSpawnInterval, SPAWN_INTERVAL_START, SPAWN_INTERVAL_END,
    GAME_DURATION.
  assert ((30 - newTimeLeft) / 30 <= 1)%Q as Hd.
  { apply Qle_shift_div_r; [reflexivity | lra]. }
  lra.
Qed.

(** What a frame does to the last spawn time and to the empty holes. *)
Lemma step_frame_attempt (w : World) (now : Z) (d : Draws) :
  let w' := step w (Frame now d) in
  (lastSpawnTime (refs w') = lastSpawnTime (refs w)
   /\ forall n, grid (game w) !! n = Some None -> grid (game w') !! n = Some None)
  \/ (lastSpawnTime (refs w') = now
      /\ (currentSpawnInterval (remaining (startTime (refs w)) now)
          < inject_Z (now - lastSpawnTime (refs w)))%Q).
Proof.
  simpl. destruct (mounted w) eqn:Hm; [| by left].
  unfold loop. destruct (isPaused (game w)) eqn:Hp.
  { left. by rewrite commit_game, commit_refs. }
  destruct (le _ 0) eqn:Hle.
  { left. by rewrite commit_game, commit_refs. }
  destruct (gt _ _) eqn:Hgt.
  - right. rewrite commit_refs. split; [done | by apply gt_true].
  - left. rewrite commit_game, commit_refs. split; [done |].
    intros n Hn. simpl. by rewrite list_lookup_fmap, Hn.
Qed.

(** X25. Entities appear at most once per 400 ms: a frame that puts an
    entity into a hole that was empty records its own time as the last
    spawn time, and a frame changes the recorded time only when more than
    400 ms have passed since the time recorded before. *)
Theorem spawns_at_least_400ms_apart (w : World) (now : Z) (d : Draws) :
  let w' := step w (Frame now d) in
  (lastSpawnTime (refs w') = lastSpawnTime (refs w)
   \/ lastSpawnTime (refs w') = now /\ 400 < now - lastSpawnTime (refs w))
  /\ (forall (n : nat) (e : GameEntity),
        grid (game w) !! n = Some None ->
        grid (game w') !! n = Some (Some e) ->
        lastSpawnTime (refs w') = now /\ 400 < now - lastSpawnTime (refs w)).
Proof.
  intros w'. subst w'.
  assert (forall since : Z,
            (currentSpawnInterval (remaining (startTime (refs w)) now) < inject_Z since)%Q ->
            400 < since) as Hmin.
  { intros since Hlt. rewrite Zlt_Qlt.
    eapply Qle_lt_trans; [| exact Hlt].
    apply (currentSpawnInterval_min _ (remaining_nonneg _ _)). }
  destruct (step_frame_attempt w now d) as [[Hsame Hempty] | [Hnow Hlt]].
  - split; [by left |]. intros n e Hn Hnew. rewrite (Hempty n Hn) in Hnew. done.
  - split; [right |]; eauto.
Qed.

(** After the spawn at 15400, the frame at 16001 spawns again, 601 ms
    later. *)
Lemma spawns_at_least_400ms_apart_witness :
  let w := afterFirstHit in
  let d := bombDraws 0 "b" 16001 in
  grid (game w) !! 1%nat = Some None
  /\ lastSpawnTime (refs (step w (Frame 16001 d))) = 16001
  /\ 400 < 16001 - lastSpawnTime (refs w).
Proof.
  intros w d.
  assert (grid (game w) !! 1%nat = Some None) as Hn by (vm_compute; reflexivity).
  assert (grid (game (step w (Frame 16001 d))) !! 1%nat
          = Some (Some (newEntity (getDifficulty (timeLeft (game w))) d))) as Hnew
    by (vm_compute; reflexivity).
  split; [exact Hn |].
  exact (proj2 (spawns_at_least_400ms_apart w 16001 d) 1%nat _ Hn Hnew).
Defined.

(** * The component in double precision *)

Section DoublePrecision.
Import Double PrimFloat.
#[local] Set Warnings "-inexact-float".

(** ** Empty holes and spawns *)

Lemma double_emptyIndices_spec (g : GridState) (k : Z) :
  In k (emptyIndices g) -> exists n, k = Z.of_nat n /\ g !! n = Some None.
Proof.
  unfold emptyIndices. rewrite filter_In, <- list_elem_of_In, elem_of_lookup_imap.
  intros [(n & slot & Hk & Hn) Hne].
  destruct slot as [e |].
  - subst k. discriminate.
  - by exists n.
Qed.

Lemma double_pickHole_spec (g : GridState) (roll : float) (k : Z) :
  pickHole (emptyIndices g) roll = Some k ->
  exists n, k = Z.of_nat n /\ g !! n = Some None.
Proof.
  unfold pickHole. destruct (Math_floor _) as [j |]; [| done].
  intros [_ Hk]%array_get_Some.
  by apply list_elem_of_lookup_2, list_elem_of_In, double_emptyIndices_spec in Hk.
Qed.

(** The three ways [spawnEntity] can end. *)
Lemma double_spawnEntity_cases (rendered : GameState) (d : Draws) :
  spawnEntity rendered d = []
  \/ spawnEntity rendered d = [setGrid (fun prev => prev)]
  \/ exists n,
       grid rendered !! n = Some None
       /\ pickHole (emptyIndices (grid rendered)) (holeRoll d) = Some (Z.of_nat n)
       /\ spawnEntity rendered d
          = [setGrid (fun prev =>
               array_set prev (Z.of_nat n)
                 (Some (newEntity (getDifficulty (timeLeft rendered)) d)))].
Proof.
  unfold spawnEntity.
  destruct (capReached _ _); [by left |].
  destruct (length (emptyIndices (grid rendered)) =? 0)%nat; [by left |].
  destruct (pickHole _ _) as [k |] eqn:Hk; [| by right; left].
  right; right.
  destruct (double_pickHole_spec _ _ _ Hk) as (n & -> & Hn).
  by exists n.
Qed.

(** ** What a frame leaves *)

(** The state a frame leaves when the loop of the render [rendered] runs
    and its updates are applied to that render. *)
Lemma double_frame_cases (rendered : GameState) (refs : GameRefs) (now : Z) (d : Draws) :
  let s' := rerender (loop rendered refs now d).2 rendered in
  score s' = score rendered
  /\ lives s' = lives rendered
  /\ (isPaused rendered = false ->
      le (remaining (startTime refs) now) 0 = false ->
      grid s' = despawn now <$> grid rendered
      \/ exists n, grid rendered !! n = Some None
                   /\ grid s' = <[n := Some (newEntity (getDifficulty (timeLeft rendered)) d)]>
                                  (despawn now <$> grid rendered)).
Proof.
  unfold loop, rerender.
  destruct (isPaused rendered) eqn:Hp; [by repeat split |].
  destruct (le (remaining (startTime refs) now) 0) eqn:Hup; [by repeat split |].
  destruct (gt _ _); [| repeat split; by left].
  destruct (double_spawnEntity_cases rendered d) as [-> | [-> | (n & Hn & _ & ->)]];
    [repeat split; by left .. |].
  repeat split. intros _ _. right. exists n. split; [done |]. simpl.
  rewrite array_set_inside, Nat2Z.id; [done | lia |].
  rewrite Nat2Z.id, length_fmap. by eapply lookup_lt_Some.
Qed.

(** An occupied slot after a running frame holds what [despawn] leaves of
    its entity: a spawn only writes to holes that were empty. *)
Lemma double_frame_occupied (rendered : GameState) (refs : GameRefs) (now : Z) (d : Draws)
    (n : nat) (e : GameEntity) :
  isPaused rendered = false ->
  le (remaining (startTime refs) now) 0 = false ->
  grid rendered !! n = Some (Some e) ->
  grid (rerender (loop rendered refs now d).2 rendered) !! n = Some (despawn now (Some e)).
Proof.
  intros Hp Hup Hn.
  destruct (double_frame_cases rendered refs now d) as (_ & _ & HG).
  destruct (HG Hp Hup) as [-> | (m & Hm & ->)].
  - by rewrite list_lookup_fmap, Hn.
  - rewrite list_lookup_insert_ne by congruence.
    by rewrite list_lookup_fmap, Hn.
Qed.

(** C5 (as the code has it). A frame changes neither score nor lives,
    whatever is on the grid.  On a frame that runs the sweep at time [now]
    (not paused, time remains), an occupied slot is cleared when its entity
    is hit and [now - spawnTime > duration + 500], cleared when its entity
    is not hit and [now - spawnTime > duration], and otherwise keeps its
    entity unchanged, where [duration + 500] is the double sum the loop
    computes, rounded to the nearest double. *)
Theorem sweep_clears_expired (rendered : GameState) (refs : GameRefs) (now : Z) (d : Draws)
    (n : nat) (e : GameEntity) :
  let s' := rerender (loop rendered refs now d).2 rendered in
  let age := ofZ (now - spawnTime e) in
  (score s' = score rendered /\ lives s' = lives rendered)
  /\ (isPaused rendered = false ->
      (remaining (startTime refs) now <=? 0)%float = false ->
      grid rendered !! n = Some (Some e) ->
      (isHit e = true -> (duration e + 500 <? age)%float = true ->
       grid s' !! n = Some None)
      /\ (isHit e = false -> (duration e <? age)%float = true ->
          grid s' !! n = Some None)
      /\ (isHit e = true -> (duration e + 500 <? age)%float = false ->
          grid s' !! n = Some (Some e))
      /\ (isHit e = false -> (duration e <? age)%float = false ->
          grid s' !! n = Some (Some e))).
Proof.
  intros s' age. subst s' age.
  split; [split; apply double_frame_cases |].
  intros Hp Hup Hn.
  rewrite (double_frame_occupied rendered refs now d n e Hp Hup Hn).
  unfold despawn, gt.
  repeat split; intros Hh Hage; by rewrite Hh, Hage.
Qed.

(** The mole of [lateRound] has duration 981.9999999999999, and
    981.9999999999999 + 500 is 1482 in double arithmetic.  Once hit it is
    still there on a frame 1482 ms after its spawn, and gone one
    millisecond later; score and lives are not touched by either frame. *)
Lemma sweep_clears_expired_witness :
  let s := whack audible soundEngine lateRound.1 1 lateRound.1 in
  let r := lateRound.2 in
  let e := mkEntity "b" mole 21000 981.9999999999999 true in
  grid s !! 1%nat = Some (Some e)
  /\ (duration e + 500)%float = 1482%float
  /\ grid (frame 22482 (moleDraws 0 "c" 22482) (s, r)).1 !! 1%nat = Some (Some e)
  /\ grid (frame 22483 (moleDraws 0 "c" 22483) (s, r)).1 !! 1%nat = Some None
  /\ score (frame 22483 (moleDraws 0 "c" 22483) (s, r)).1 = score s
  /\ lives (frame 22483 (moleDraws 0 "c" 22483) (s, r)).1 = lives s.
Proof.
  intros s r e.
  assert (grid s !! 1%nat = Some (Some e)) as Hn by (vm_compute; reflexivity).
  pose proof (sweep_clears_expired s r 22482 (moleDraws 0 "c" 22482) 1 e)
    as (_ & Hkeep).
  pose proof (sweep_clears_expired s r 22483 (moleDraws 0 "c" 22483) 1 e)
    as ((Hscore & Hlives) & Hgone).
  specialize (Hkeep eq_refl ltac:(vm_compute; reflexivity) Hn) as (_ & _ & Hkeep & _).
  specialize (Hgone eq_refl ltac:(vm_compute; reflexivity) Hn) as (Hgone & _).
  split; [exact Hn |].
  split; [vm_compute; reflexivity |].
  split; [apply Hkeep; vm_compute; reflexivity |].
  split; [apply Hgone; vm_compute; reflexivity |].
  split; [exact Hscore | exact Hlives].
Defined.

(** C5 as stated, with the exact sum, fails.  The hit mole of [lateRound]
    has a duration just below 982 ms, so on the frame at 22482, which is
    1482 ms after its spawn, [now - spawnTime] exceeds [duration + 500];
    the sweep runs and keeps the entity, because the double sum is 1482. *)
Lemma hit_entity_kept_past_exact_deadline :
  let s := whack audible soundEngine lateRound.1 1 lateRound.1 in
  let r := lateRound.2 in
  let e := mkEntity "b" mole 21000 981.9999999999999 true in
  let s' := (frame 22482 (moleDraws 0 "c" 22482) (s, r)).1 in
  grid s !! 1%nat = Some (Some e)
  /\ isPaused s = false
  /\ (remaining (startTime r) 22482 <=? 0)%float = false
  /\ toQ (duration e) = Some (8637763347808255 # 8796093022208)
  /\ ((8637763347808255 # 8796093022208) + 500 < inject_Z (22482 - spawnTime e))%Q
  /\ grid s' !! 1%nat = Some (Some e).
Proof. repeat split; vm_compute; reflexivity. Qed.

(** ** Spawn cadence *)

(** C8 (as the code has it). On a frame that is not paused and on which
    time remains, [loop] calls [spawnEntity] and records [now] as the last
    spawn time exactly when strictly more than [currentSpawnInterval]
    milliseconds have passed since the recorded last spawn time; the time
    is recorded whatever [spawnEntity] did.  Otherwise [spawnEntity] is
    not called and the record is kept.  The interval is the double the
    loop computes, [800 - ((30 - newTimeLeft) / 30) * (800 - 400)] with
    every operation rounded. *)
Theorem spawn_attempt_after_interval (rendered : GameState) (refs : GameRefs) (now : Z)
    (d : Draws) :
  isPaused rendered = false ->
  (remaining (startTime refs) now <=? 0)%float = false ->
  let newTimeLeft := remaining (startTime refs) now in
  let interval := currentSpawnInterval newTimeLeft in
  let since := ofZ (now - lastSpawnTime refs) in
  ((interval <? since)%float = true ->
   loop rendered refs now d
   = (setLastSpawnTime refs now,
      [setTimeLeft newTimeLeft; setGrid (fmap (despawn now))]
        ++ spawnEntity rendered d ++ [host requestAnimationFrame]))
  /\ ((interval <? since)%float = false ->
      loop rendered refs now d
      = (refs,
         [setTimeLeft newTimeLeft; setGrid (fmap (despawn now));
          host requestAnimationFrame])).
Proof.
  intros Hp Hup newTimeLeft interval since. subst newTimeLeft interval since.
  unfold loop, le, gt. rewrite Hp, Hup.
  split; by intros ->.
Qed.

(** With the round mounted at 1000 and the last attempt made by the frame
    at 22088, the frame at 22600 comes exactly 512 ms after it.  The interval computed
    in doubles is 511.99999999999994 (in exact arithmetic it would be
    512), so the frame attempts a spawn. *)
Lemma spawn_attempt_after_interval_witness :
  let s := (frame 22088 (moleDraws 0 "c" 22088) lateRound).1 in
  let r := (frame 22088 (moleDraws 0 "c" 22088) lateRound).2 in
  let d := moleDraws 0 "d" 22600 in
  lastSpawnTime r = 22088
  /\ currentSpawnInterval (remaining (startTime r) 22600) = 511.99999999999994%float
  /\ ofZ (22600 - lastSpawnTime r) = 512%float
  /\ loop s r 22600 d
     = (setLastSpawnTime r 22600,
        [setTimeLeft (remaining (startTime r) 22600); setGrid (fmap (despawn 22600))]
          ++ spawnEntity s d ++ [host requestAnimationFrame]).
Proof.
  intros s r d.
  split; [vm_compute; reflexivity |].
  split; [vm_compute; reflexivity |].
  split; [vm_compute; reflexivity |].
  apply (spawn_attempt_after_interval s r 22600 d); vm_compute; reflexivity.
Defined.

(** C8 as stated fails: in [halfTime] the last attempt was at 15400, and at
    16000 the interval is exactly 600 ms, so "at least the interval" has
    passed; yet the frame makes no attempt: [spawnEntity] is not called
    (it would have placed an entity: the grid has no unhit entity), and the
    last spawn time stays 15400. *)
Lemma no_attempt_at_exact_interval :
  let s := halfTime.1 in
  let r := halfTime.2 in
  let d := moleDraws 0 "b" 16000 in
  lastSpawnTime r = 15400
  /\ currentSpawnInterval (remaining (startTime r) 16000) = 600%float
  /\ ofZ (16000 - lastSpawnTime r) = 600%float
  /\ (currentSpawnInterval (remaining (startTime r) 16000)
      <=? ofZ (16000 - lastSpawnTime r))%float = true
  /\ currentCount (grid s) = 0%nat
  /\ spawnEntity s d <> []
  /\ loop s r 16000 d
     = (r, [setTimeLeft (remaining (startTime r) 16000);
            setGrid (fmap (despawn 16000)); host requestAnimationFrame])
  /\ lastSpawnTime (frame 16000 d (s, r)).2 = 15400
  /\ currentCount (grid (frame 16000 d (s, r)).1) = 0%nat.
Proof. repeat split; try (vm_compute; reflexivity). vm_compute. discriminate. Qed.


(** ** What a hit does *)

Lemma double_handleWhack_blocked (env : AudioEnv) (eng : SoundEngine)
    (rendered : GameState) (index : Z) :
  blocked (grid rendered) index = true ->
  handleWhack env eng rendered index = mkWhack [] (Normal (eng, [])).
Proof.
  unfold blocked, handleWhack.
  destruct (array_get (grid rendered) index) as [[e |] |]; try done.
  by intros ->.
Qed.

(** A hit by the handler of a render that shows [e] not hit: the handler
    completes as its sound call does, and enqueues the mark, followed by
    the score or lives update when the sound call returned. *)
Lemma double_handleWhack_hit (env : AudioEnv) (eng : SoundEngine)
    (rendered : GameState) (index : Z) (e : GameEntity) :
  array_get (grid rendered) index = Some (Some e) ->
  isHit e = false ->
  completion (handleWhack env eng rendered index)
  = play (toneOf (cueOfType (type e))) env eng
  /\ enqueued (handleWhack env eng rendered index)
     = setGrid (markHitAt index)
       :: match play (toneOf (cueOfType (type e))) env eng with
          | Throw _ => []
          | Normal _ =>
              [match type e with
               | bomb => setLives (loseLife (score rendered))
               | golden => setScore (fun s => s + 3)
               | mole => setScore (fun s => s + 1)
               end]
          end.
Proof.
  intros Hget Hhit. unfold handleWhack. rewrite Hget, Hhit.
  unfold playBomb, playGolden, playWhack.
  destruct (type e); simpl; by destruct (play _ env eng).
Qed.

(** C3 holds of the handler of the latest render and fails of the page.
    The guard of [handleWhack] reads the grid of the render that created
    the handler: when that grid shows the slot empty or its entity hit, the
    call enqueues nothing and makes no sound.  But the element of a hit
    entity stays on screen while it animates out, with the handler of the
    render before the hit, whose grid still shows the entity not hit.  A
    second touch on it runs that handler again: the mole hit at 1100 is
    scored a second time, the bomb costs a second life, while the grid is
    left as the first hit left it. *)
Theorem stale_handler_scores_twice :
  (forall env eng rendered index,
     blocked (grid rendered) index = true ->
     handleWhack env eng rendered index = mkWhack [] (Normal (eng, [])))
  /\ (let s0 := (frame 1016 (moleDraws 0 "a" 1016) (mounted_at 1000)).1 in
      let s1 := whack audible playingEngine s0 0 s0 in
      let s2 := whack audible playingEngine s0 0 s1 in
      blocked (grid s0) 0 = false
      /\ score s0 = 0 /\ score s1 = 1
      /\ blocked (grid s1) 0 = true
      /\ whack audible playingEngine s1 0 s1 = s1
      /\ score s2 = 2
      /\ grid s2 = grid s1)
  /\ (let s0 := (frame 1016 (mkDraws 0 0.9 "a" 1016) (mounted_at 1000)).1 in
      let s1 := whack audible playingEngine s0 0 s0 in
      let s2 := whack audible playingEngine s0 0 s1 in
      lives s0 = 3 /\ lives s1 = 2
      /\ whack audible playingEngine s1 0 s1 = s1
      /\ lives s2 = 1
      /\ grid s2 = grid s1).
Proof.
  split; [apply double_handleWhack_blocked |].
  split; vm_compute; repeat split.
Qed.

(** X23. A hit asks the sound engine for the tone of its entity's type
    (bomb, golden, otherwise whack) and for nothing else, and it completes
    as that call does: it throws exactly when the sound is on, no audio
    context exists yet and the browser offers no constructor for one.  A
    call that the guard stops leaves the engine alone. *)
Theorem whack_completes_as_its_sound (env : AudioEnv) (eng : SoundEngine)
    (rendered : GameState) (index : Z) :
  (blocked (grid rendered) index = true ->
   completion (handleWhack env eng rendered index) = Normal (eng, []))
  /\ (forall e : GameEntity,
        array_get (grid rendered) index = Some (Some e) ->
        isHit e = false ->
        completion (handleWhack env eng rendered index)
        = play (toneOf (cueOfType (type e))) env eng
        /\ ((exists msg, completion (handleWhack env eng rendered index) = Throw msg)
            <-> enabled eng = true /\ ctx eng = false /\ available env = false)).
Proof.
  split.
  { intros Hb. by rewrite double_handleWhack_blocked. }
  intros e Hget Hhit.
  destruct (double_handleWhack_hit env eng rendered index e Hget Hhit) as [-> _].
  split; [done |].
  rewrite play_cases. cbv zeta.
  destruct (enabled eng), (ctx eng), (available env); simpl;
    (split; [intros [msg H]; by inversion H | intros (? & ? & ?); try done; by eexists]).
Qed.

Lemma whack_completes_as_its_sound_witness :
  let s := (frame 1016 (mkDraws 0 0.9 "a" 1016) (mounted_at 1000)).1 in
  completion (handleWhack audible playingEngine s 0)
  = Normal (playingEngine, [startTone bombTone])
  /\ completion (handleWhack silent soundEngine s 0) = Throw "undefined is not a constructor"
  /\ completion (handleWhack silent soundEngine s 1) = Normal (soundEngine, []).
Proof.
  intros s.
  pose proof (whack_completes_as_its_sound audible playingEngine s 0) as [_ H1].
  pose proof (whack_completes_as_its_sound silent soundEngine s 0) as [_ H2].
  pose proof (whack_completes_as_its_sound silent soundEngine s 1) as [H3 _].
  split; [| split].
  - rewrite (proj1 (H1 _ ltac:(vm_compute; reflexivity) eq_refl)). reflexivity.
  - rewrite (proj1 (H2 _ ltac:(vm_compute; reflexivity) eq_refl)). reflexivity.
  - apply H3. reflexivity.
Defined.

Lemma double_markHitAt_unhit (g : GridState) (index : Z) (e : GameEntity) :
  array_get g index = Some (Some e) ->
  markHitAt index g = <[Z.to_nat index := Some (markHit e)]> g.
Proof.
  intros Hget. unfold markHitAt. rewrite Hget.
  apply array_get_Some in Hget as [Hi Hn].
  apply array_set_inside; [done | by eapply lookup_lt_Some].
Qed.

(** The state a hit leaves, by a handler whose render shows [e] not hit,
    applied to the state [current]. *)
Lemma double_whack_hit (env : AudioEnv) (eng : SoundEngine)
    (rendered current : GameState) (index : Z) (e : GameEntity) :
  array_get (grid rendered) index = Some (Some e) ->
  isHit e = false ->
  let s' := whack env eng rendered index current in
  grid s' = markHitAt index (grid current)
  /\ timeLeft s' = timeLeft current
  /\ isPaused s' = isPaused current
  /\ match completion (handleWhack env eng rendered index) with
     | Normal _ =>
         score s' = score current + points (ENTITY_CONFIG (type e))
         /\ lives s' = lives current - lifeCost (type e)
     | Throw _ => score s' = score current /\ lives s' = lives current
     end.
Proof.
  intros Hget Hhit s'. subst s'. unfold whack, rerender.
  destruct (double_handleWhack_hit env eng rendered index e Hget Hhit) as [-> ->].
  destruct (play _ env eng) as [r | msg]; [| by repeat split].
  destruct (type e); simpl; repeat split; lia.
Qed.

(** X10. A hit by a handler whose render shows the entity [e] not hit,
    applied to whatever state is current: the current grid gets the mark
    at the index (if the slot still holds an entity); when the sound call
    returns, the current score grows by the points [ENTITY_CONFIG] lists
    for the type of [e] (1 for a mole, 3 for a golden one, 0 for a bomb)
    and a life is lost exactly when [e] is a bomb; when the sound call
    throws, score and lives stay as they are although the entity is
    marked.  Remaining time and pause flag are untouched. *)
Theorem whack_scores_by_config (env : AudioEnv) (eng : SoundEngine)
    (rendered current : GameState) (index : Z) (e : GameEntity) :
  array_get (grid rendered) index = Some (Some e) ->
  isHit e = false ->
  let s' := whack env eng rendered index current in
  grid s' = markHitAt index (grid current)
  /\ timeLeft s' = timeLeft current
  /\ isPaused s' = isPaused current
  /\ match completion (handleWhack env eng rendered index) with
     | Normal _ =>
         score s' = score current + points (ENTITY_CONFIG (type e))
         /\ lives s' = lives current - lifeCost (type e)
     | Throw _ => score s' = score current /\ lives s' = lives current
     end.
Proof. apply double_whack_hit. Qed.

(** A golden entity hit with the sound working gives 3 points; hit in a
    browser without [AudioContext] it is marked and gives none. *)
Lemma whack_scores_by_config_witness :
  let s := (frame 1016 (mkDraws 0 0.8 "g" 1016) (mounted_at 1000)).1 in
  score (whack audible playingEngine s 0 s) = 3
  /\ lives (whack audible playingEngine s 0 s) = 3
  /\ score (whack silent soundEngine s 0 s) = 0
  /\ blocked (grid (whack silent soundEngine s 0 s)) 0 = true.
Proof.
  intros s.
  pose proof (whack_scores_by_config audible playingEngine s s 0
                (mkEntity "g" golden 1016 1500 false)
                ltac:(vm_compute; reflexivity) eq_refl) as (_ & _ & _ & Hs & Hl).
  pose proof (whack_scores_by_config silent soundEngine s s 0
                (mkEntity "g" golden 1016 1500 false)
                ltac:(vm_compute; reflexivity) eq_refl) as (Hg & _ & _ & Hs' & _).
  split; [exact Hs |]. split; [exact Hl |]. split; [exact Hs' |].
  rewrite Hg. vm_compute. reflexivity.
Defined.


Lemma double_frame_fst (s : GameState) (r : GameRefs) (now : Z) (d : Draws) :
  (frame now d (s, r)).1 = rerender (loop s r now d).2 s.
Proof. unfold frame. simpl. by destruct (loop s r now d). Qed.

(** X11. A hit buys the entity 500 ms: once it is hit, whether or not the
    sound call returned, a later running frame at [now] clears its slot
    when [now - spawnTime > duration + 500] (the sum rounded to a double)
    and otherwise shows it as hit; the moment of the hit plays no part. *)
Theorem hit_entity_leaves_500ms_later (env : AudioEnv) (eng : SoundEngine)
    (s : GameState) (r : GameRefs) (now : Z) (d : Draws) (n : nat) (e : GameEntity) :
  isPaused s = false ->
  grid s !! n = Some (Some e) ->
  isHit e = false ->
  (remaining (startTime r) now <=? 0)%float = false ->
  let s1 := whack env eng s (Z.of_nat n) s in
  let s2 := (frame now d (s1, r)).1 in
  grid s2 !! n
  = Some (if (duration e + 500 <? ofZ (now - spawnTime e))%float
          then None else Some (markHit e)).
Proof.
  intros Hp Hn Hhit Hup s1 s2. subst s1 s2.
  assert (array_get (grid s) (Z.of_nat n) = Some (Some e)) as Hget.
  { apply array_get_Some. rewrite Nat2Z.id. split; [lia | done]. }
  destruct (double_whack_hit env eng s s (Z.of_nat n) e Hget Hhit) as (Hg & _ & Hp1 & _).
  rewrite double_frame_fst.
  rewrite (double_frame_occupied _ r now d n (markHit e)); [done | congruence | done |].
  rewrite Hg, (double_markHitAt_unhit _ _ _ Hget), Nat2Z.id.
  apply list_lookup_insert_eq. by eapply lookup_lt_Some.
Qed.

(** The mole of [lateRound] (spawned at 21000, duration 981.9999999999999)
    is hit in a browser without [AudioContext], so the hit throws: it is
    still shown as hit on the frame at 22482 and gone on the frame at
    22483. *)
Lemma hit_entity_leaves_500ms_later_witness :
  let s := lateRound.1 in
  let r := lateRound.2 in
  let e := mkEntity "b" mole 21000 981.9999999999999 false in
  grid (frame 22482 (moleDraws 0 "c" 22482) (whack silent soundEngine s 1 s, r)).1 !! 1%nat
  = Some (Some (markHit e))
  /\ grid (frame 22483 (moleDraws 0 "c" 22483) (whack silent soundEngine s 1 s, r)).1 !! 1%nat
     = Some None.
Proof.
  intros s r e.
  split.
  - exact (hit_entity_leaves_500ms_later silent soundEngine s r 22482
             (moleDraws 0 "c" 22482) 1 e eq_refl
             ltac:(vm_compute; reflexivity) eq_refl ltac:(vm_compute; reflexivity)).
  - exact (hit_entity_leaves_500ms_later silent soundEngine s r 22483
             (moleDraws 0 "c" 22483) 1 e eq_refl
             ltac:(vm_compute; reflexivity) eq_refl ltac:(vm_compute; reflexivity)).
Defined.

(** ** Holes *)

(** X13. The hole elements that one render of [Game] creates: each calls
    [onWhack], which is the [handleWhack] of that same render, with its own
    position only, which lies inside the grid; it calls exactly when the
    guard of that [handleWhack] lets the call through, and every call it
    makes enqueues updates.  (An element that is still on screen after a
    later render, because it animates out, is an element of the render
    that created it.) *)
Theorem hole_guard_agrees (env : AudioEnv) (eng : SoundEngine) (rendered : GameState)
    (i : nat) (entity : option GameEntity) (index : Z) :
  holes rendered !! i = Some (entity, index) ->
  index = Z.of_nat i
  /\ 0 <= index < Z.of_nat (length (grid rendered))
  /\ array_get (grid rendered) index = Some entity
  /\ handleInteraction entity index
     = (if blocked (grid rendered) index then [] else [index])
  /\ Forall (fun idx => enqueued (handleWhack env eng rendered idx) <> [])
            (handleInteraction entity index).
Proof.
  unfold holes. rewrite list_lookup_imap.
  destruct (grid rendered !! i) as [slot |] eqn:Hi; [| done].
  intros [= <- <-].
  assert (array_get (grid rendered) (Z.of_nat i) = Some slot) as Hget.
  { apply array_get_Some. rewrite Nat2Z.id. split; [lia | done]. }
  apply lookup_lt_Some in Hi as Hlt.
  split_and!; [done | lia | lia | done | |].
  - unfold blocked, handleInteraction. rewrite Hget.
    destruct slot as [e |]; [| done]. by destruct (isHit e).
  - unfold handleInteraction.
    destruct slot as [e |]; [| constructor].
    destruct (isHit e) eqn:Hh; [constructor |]. simpl.
    constructor; [| constructor].
    by destruct (double_handleWhack_hit env eng rendered _ e Hget Hh) as [_ ->].
Qed.

Lemma hole_guard_agrees_witness :
  let rendered := (frame 1016 (moleDraws 0 "a" 1016) (mounted_at 1000)).1 in
  let entity := Some (mkEntity "a" mole 1016 1500 false) in
  holes rendered !! 0%nat = Some (entity, 0)
  /\ handleInteraction entity 0 = [0]
  /\ blocked (grid rendered) 0 = false.
Proof.
  intros rendered entity.
  assert (holes rendered !! 0%nat = Some (entity, 0)) as Hh by (vm_compute; reflexivity).
  pose proof (hole_guard_agrees audible playingEngine rendered 0 entity 0 Hh)
    as (_ & _ & _ & Hcall & _).
  split; [exact Hh |]. split; [reflexivity |].
  destruct (blocked (grid rendered) 0); [discriminate Hcall | reflexivity].
Defined.

(** ** Choosing a hole *)



End DoublePrecision.
